(** * Read-only views over slices and maps (package [views])

    A shallow embedding of the Go package [views]: the generic slice view
    [Slice[T]], the map view [Map[K,V]], the value-converting map view
    [MapFn[K,T,V]] and the one-shot JSON decoding guard [unmarshalJSON],
    followed by the properties the package's documentation states about
    them.

    Conventions.
    - Go's [int] is modelled by [Z]; every integer that occurs is a length
      or an index, so no wrap-around is involved.
    - A slice value is either nil or a sequence of elements ([goslice]);
      where aliasing of backing arrays matters ([AppendTo], [AsSlice]) the
      slice header and the store of backing arrays are modelled explicitly
      in module [Mem].
    - A run-time panic is an outcome of its own ([Panic]), distinct from an
      [error] result.
    - A method with a pointer receiver returns the updated receiver next to
      its results. *)

From stdpp Require Import base decidable option list numbers gmap strings.
From Equations Require Import Equations.
From Stdlib.Strings Require Import Byte.

Local Open Scope Z_scope.

(** ** Go values *)

(** A slice as a value: nil, or non-nil with its elements in order. *)
Inductive goslice (T : Type) : Type :=
| nil_slice : goslice T
| slice_of (l : list T) : goslice T.
Arguments nil_slice {T}.
Arguments slice_of {T} l.

(** The elements a slice ranges over; a nil slice has none. *)
Definition elements {T} (x : goslice T) : list T :=
  match x with
  | nil_slice => []
  | slice_of l => l
  end.

(** [x == nil] *)
Definition is_nil {T} (x : goslice T) : bool :=
  match x with
  | nil_slice => true
  | slice_of _ => false
  end.

(** [len(x)] *)
Definition len {T} (x : goslice T) : Z := Z.of_nat (length (elements x)).

(** Run-time panics raised by the operations of the package. *)
Inductive runtime_error : Type :=
| index_out_of_range (i : Z) (n : Z)
| slice_bounds_out_of_range (high max : Z).

(** Outcome of an expression that may panic. *)
Inductive result (A : Type) : Type :=
| Ok (a : A)
| Panic (e : runtime_error).
Arguments Ok {A} a.
Arguments Panic {A} e.

(** [x[i]]: the bounds check of an index expression. *)
Definition index {T} (x : goslice T) (i : Z) : result T :=
  if i <? 0 then Panic (index_out_of_range i (len x))
  else match elements x !! Z.to_nat i with
       | Some e => Ok e
       | None => Panic (index_out_of_range i (len x))
       end.

(** Values of Go's [error] interface that the package can return: the one
    built by [errors.New], and those coming out of [encoding/json]. The nil
    error is [None] in [option error]. *)
Inductive error : Type :=
| errors_New (msg : string)
| json_error (msg : string).

(** A zero value for each element type, as returned by a map read of a
    missing key. *)
Class GoZero (T : Type) : Type := zero : T.

(** [encoding/json] for slices of [T]. The library is outside the package;
    it is an interface here. [json_Unmarshal b x] receives the referent [x]
    of the pointer argument and returns its new value. *)
Class JSON (T : Type) : Type := {
  json_Marshal : goslice T → list byte * option error;
  json_Unmarshal : list byte → goslice T → goslice T * option error
}.

(** ** The package *)

(** [func unmarshalJSON[T any](b []byte, x *[]T) error] *)
Definition unmarshalJSON {T} `{JSON T} (b : list byte) (x : goslice T)
  : goslice T * option error :=
  if negb (is_nil x) then (x, Some (errors_New "already initialized"))
  else if Nat.eqb (length b) 0 then (x, None)
  else json_Unmarshal b x.

Module Slice.

(** [type Slice[T any] struct { ж []T }] *)
Record t (T : Type) : Type := mk { ж : goslice T }.
Arguments mk {T} ж.
Arguments ж {T} _.

Section Methods.
Context {T : Type}.
Local Abbreviation Slice := (t T).

(** [func (v Slice[T]) MarshalJSON() ([]byte, error)] *)
Definition MarshalJSON `{JSON T} (v : Slice) : list byte * option error :=
  json_Marshal (ж v).

(** [func (v *Slice[T]) UnmarshalJSON(b []byte) error] *)
Definition UnmarshalJSON `{JSON T} (v : Slice) (b : list byte)
  : Slice * option error :=
  let '(x, err) := unmarshalJSON b (ж v) in (mk x, err).

(** [func (v Slice[T]) IsNil() bool] *)
Definition IsNil (v : Slice) : bool := is_nil (ж v).

(** [func (v Slice[T]) Len() int] *)
Definition Len (v : Slice) : Z := len (ж v).

(** [func (v Slice[T]) At(i int) T] *)
Definition At (v : Slice) (i : Z) : result T := index (ж v) i.

(** The loop of [IndexFunc], entered with loop variable [i]:
    [for ; i < v.Len(); i++ { if f(v.At(i)) { return i } }; return -1].
    The predicate is a function of the element it is given. *)
Equations? IndexFunc_loop (v : Slice) (f : T → bool) (i : Z) : result Z
  by wf (Z.to_nat (Len v - i)) lt :=
  IndexFunc_loop v f i with Z_lt_dec i (Len v) => {
    | right _ => Ok (-1);
    | left _ with At v i => {
        | Panic e => Panic e;
        | Ok x with f x => {
            | true => Ok i;
            | false => IndexFunc_loop v f (i + 1) } } }.
Proof. lia. Qed.

(** [func (v Slice[T]) IndexFunc(f func(T) bool) int] *)
Definition IndexFunc (v : Slice) (f : T → bool) : result Z :=
  IndexFunc_loop v f 0.

(** The loop of [ContainsFunc]:
    [for ; i < v.Len(); i++ { if f(v.At(i)) { return true } }; return false]. *)
Equations? ContainsFunc_loop (v : Slice) (f : T → bool) (i : Z) : result bool
  by wf (Z.to_nat (Len v - i)) lt :=
  ContainsFunc_loop v f i with Z_lt_dec i (Len v) => {
    | right _ => Ok false;
    | left _ with At v i => {
        | Panic e => Panic e;
        | Ok x with f x => {
            | true => Ok true;
            | false => ContainsFunc_loop v f (i + 1) } } }.
Proof. lia. Qed.

(** [func (v Slice[T]) ContainsFunc(f func(T) bool) bool] *)
Definition ContainsFunc (v : Slice) (f : T → bool) : result bool :=
  ContainsFunc_loop v f 0.

End Methods.
End Slice.

(** [func SliceOf[T any](x []T) Slice[T]] *)
Definition SliceOf {T} (x : goslice T) : Slice.t T := Slice.mk x.

(** ** Maps *)

(** A map as a value: nil, or a finite map. Reading a nil map behaves like
    reading an empty one. *)
Inductive gomap (K : Type) `{Countable K} (V : Type) : Type :=
| nil_map : gomap K V
| map_of (g : gmap K V) : gomap K V.
Arguments nil_map {K _ _ V}.
Arguments map_of {K _ _ V} g.

Section GoMap.
Context {K : Type} `{Countable K} {V : Type}.

Definition entries (m : gomap K V) : gmap K V :=
  match m with
  | nil_map => ∅
  | map_of g => g
  end.

(** [m == nil] *)
Definition map_is_nil (m : gomap K V) : bool :=
  match m with
  | nil_map => true
  | map_of _ => false
  end.

(** [len(m)] *)
Definition map_len (m : gomap K V) : Z := Z.of_nat (size (entries m)).

(** [v, ok := m[k]]: the zero value and [false] for a missing key. *)
Definition map_index `{GoZero V} (m : gomap K V) (k : K) : V * bool :=
  match entries m !! k with
  | Some v => (v, true)
  | None => (zero, false)
  end.

(** The order in which one [for k, v := range m] statement enumerates the
    entries is chosen by the runtime: any arrangement of the entries. *)
Definition iteration_order (m : gomap K V) (order : list (K * V)) : Prop :=
  order ≡ₚ map_to_list (entries m).
End GoMap.

(** [type MapRangeFn[K comparable, V any] func(k K, v V) (cont bool)].
    The function value is a closure: [St] is the state it captures, which a
    call may update. *)
Definition MapRangeFn (K V St : Type) : Type := K → V → St → bool * St.

(** [for k, v := range order { if !f(k, v) { return } }], returning the
    state of the closure when the loop is left. *)
Fixpoint range_loop {K V St} (f : MapRangeFn K V St) (order : list (K * V))
    (s : St) : St :=
  match order with
  | [] => s
  | (k, v) :: rest =>
      let '(cont, s') := f k v s in
      if negb cont then s' else range_loop f rest s'
  end.

Module Map.

(** [type Map[K comparable, V any] struct { ж map[K]V }] *)
Record t (K : Type) `{Countable K} (V : Type) : Type := mk { ж : gomap K V }.
Arguments mk {K _ _ V} ж.
Arguments ж {K _ _ V} _.

Section Methods.
Context {K : Type} `{Countable K} {V : Type} `{GoZero V}.
Local Abbreviation Map := (t K V).

(** [func (m Map[K, V]) Has(k K) bool] *)
Definition Has (m : Map) (k : K) : bool := (map_index (ж m) k).2.

(** [func (m Map[K, V]) IsNil() bool] *)
Definition IsNil (m : Map) : bool := map_is_nil (ж m).

(** [func (m Map[K, V]) Len() int] *)
Definition Len (m : Map) : Z := map_len (ж m).

(** [func (m Map[K, V]) Get(k K) V] *)
Definition Get (m : Map) (k : K) : V := (map_index (ж m) k).1.

(** [func (m Map[K, V]) GetOk(k K) (V, bool)] *)
Definition GetOk (m : Map) (k : K) : V * bool :=
  let '(v, ok) := map_index (ж m) k in (v, ok).

(** [func (m Map[K, V]) Range(f MapRangeFn[K, V])], run with the
    enumeration [order] of the entries and the closure state [s]. *)
Definition Range {St} (m : Map) (order : list (K * V))
    (f : MapRangeFn K V St) (s : St) : St :=
  range_loop f order s.
End Methods.
End Map.

(** [func MapOf[K comparable, V comparable](m map[K]V) Map[K, V]] *)
Definition MapOf {K} `{Countable K} {V} (m : gomap K V) : Map.t K V := Map.mk m.

Module MapFn.

(** [type MapFn[K comparable, T any, V any] struct { ж map[K]T; wrapv func(T) V }] *)
Record t (K : Type) `{Countable K} (T V : Type) : Type :=
  mk { ж : gomap K T; wrapv : T → V }.
Arguments mk {K _ _ T V} ж wrapv.
Arguments ж {K _ _ T V} _.
Arguments wrapv {K _ _ T V} _.

Section Methods.
Context {K : Type} `{Countable K} {T V : Type} `{GoZero T}.
Local Abbreviation MapFn := (t K T V).

(** [func (m MapFn[K, T, V]) Has(k K) bool] *)
Definition Has (m : MapFn) (k : K) : bool := (map_index (ж m) k).2.

(** [func (m MapFn[K, T, V]) Get(k K) V] *)
Definition Get (m : MapFn) (k : K) : V := wrapv m (map_index (ж m) k).1.

(** [func (m MapFn[K, T, V]) IsNil() bool] *)
Definition IsNil (m : MapFn) : bool := map_is_nil (ж m).

(** [func (m MapFn[K, T, V]) Len() int] *)
Definition Len (m : MapFn) : Z := map_len (ж m).

(** [func (m MapFn[K, T, V]) GetOk(k K) (V, bool)] *)
Definition GetOk (m : MapFn) (k : K) : V * bool :=
  let '(v, ok) := map_index (ж m) k in (wrapv m v, ok).

(** [func (m MapFn[K, T, V]) Range(f MapRangeFn[K, V])]: the visitor is
    handed the converted value. *)
Definition Range {St} (m : MapFn) (order : list (K * T))
    (f : MapRangeFn K V St) (s : St) : St :=
  range_loop (λ k v, f k (wrapv m v)) order s.
End Methods.
End MapFn.

(** [func MapFnOf[K comparable, T any, V any](m map[K]T, f func(T) V) MapFn[K, T, V]] *)
Definition MapFnOf {K} `{Countable K} {T V} (m : gomap K T) (f : T → V)
  : MapFn.t K T V := MapFn.mk m f.

(** ** Slices in memory

    [AppendTo] and [AsSlice] are about which backing array a slice reads
    and writes, so here a slice is its header (array, offset, length,
    capacity) and the backing arrays live in a store. *)
Module Mem.

Local Open Scope nat_scope.

(** The identity of a backing array: its position in the store. *)
Abbreviation loc := nat.

(** A slice header. [data = None] is the nil slice; otherwise [data] names
    the backing array and the position of the slice's first element in
    it. *)
Record slice : Type := mkslice {
  data : option (loc * nat);
  slen : nat;
  scap : nat
}.

(** [type Slice[T any] struct { ж []T }], with the slice as a header. *)
Record Slice : Type := SliceOf { ж : slice }.

Section Store.
Context {T : Type} `{GoZero T}.

(** What the runtime's [append] proposes as capacity of a new backing
    array, from the old capacity and the length needed. The array it
    allocates is never smaller than the length needed. *)
Variable growcap : nat → nat → nat.

(** The backing arrays allocated so far. Arrays are never freed. *)
Abbreviation store := (list (list T)).

(** One cell of one array. *)
Definition cell (h : store) (l : loc) (j : nat) : option T :=
  h !! l ≫= λ a, a !! j.

(** The elements [s[0], ..., s[len(s)-1]]. *)
Definition elems (h : store) (s : slice) : list T :=
  match data s with
  | None => []
  | Some (l, o) => take (slen s) (drop o (default [] (h !! l)))
  end.

(** The slice as a value. *)
Definition abs (h : store) (s : slice) : goslice T :=
  match data s with
  | None => nil_slice
  | Some _ => slice_of (elems h s)
  end.

(** A header is valid in a store when its window of [cap] cells lies
    inside an allocated array; the nil slice has no cells. *)
Definition valid (h : store) (s : slice) : bool :=
  match data s with
  | None => (slen s =? 0) && (scap s =? 0)
  | Some (l, o) =>
      match h !! l with
      | Some a => (slen s <=? scap s) && (o + scap s <=? length a)
      | None => false
      end
  end.

(** The cells a holder of [s] can reach, by indexing, re-slicing up to
    the capacity, or appending in place. *)
Definition owns (s : slice) (l : loc) (j : nat) : Prop :=
  ∃ o, data s = Some (l, o) ∧ o ≤ j < o + scap s.

(** [s[:high:max]]: same array and offset, new length and capacity; a nil
    slice stays nil. *)
Definition slice3 (s : slice) (high max : nat) : result slice :=
  if (high <=? max) && (max <=? scap s)
  then Ok (mkslice (data s) high max)
  else Panic (slice_bounds_out_of_range (Z.of_nat high) (Z.of_nat max)).

(** Overwrite the cells of [a] from position [pos] on with [xs]. *)
Definition write_at (a : list T) (pos : nat) (xs : list T) : list T :=
  take pos a ++ xs ++ drop (pos + length xs) a.

(** [append(dst, xs...)]. When the spare capacity of [dst] suffices the
    elements are written behind [dst] in its own array; otherwise a new
    array is allocated, the elements of [dst] are copied to it and [xs]
    follows them. *)
Definition append (h : store) (dst : slice) (xs : list T) : store * slice :=
  let n := slen dst + length xs in
  if n <=? scap dst then
    match data dst with
    | Some (l, o) =>
        (alter (λ a, write_at a (o + slen dst) xs) l h,
         mkslice (data dst) n (scap dst))
    | None => (h, mkslice None n (scap dst))
    end
  else
    let c := Nat.max n (growcap (scap dst) n) in
    (h ++ [elems h dst ++ xs ++ replicate (c - n) zero],
     mkslice (Some (length h, 0)) n c).

(** [s[i] = x] *)
Definition set_index (h : store) (s : slice) (i : Z) (x : T) : result store :=
  if (i <? 0)%Z || (Z.of_nat (slen s) <=? i)%Z
  then Panic (index_out_of_range i (Z.of_nat (slen s)))
  else match data s with
       | Some (l, o) => Ok (alter (λ a, <[o + Z.to_nat i := x]> a) l h)
       | None => Panic (index_out_of_range i (Z.of_nat (slen s)))
       end.

(** [func (v Slice[T]) AppendTo(dst []T) []T] *)
Definition AppendTo (h : store) (v : Slice) (dst : slice) : store * slice :=
  append h dst (elems h (ж v)).

(** [func (v Slice[T]) AsSlice() []T] *)
Definition AsSlice (h : store) (v : Slice) : result (store * slice) :=
  match slice3 (ж v) 0 0 with
  | Ok d => Ok (AppendTo h v d)
  | Panic e => Panic e
  end.

(** [h2] is [h1] except possibly in cells that [r] owns: what any
    sequence of writes through [r] can make of [h1]. *)
Definition differs_only_in (r : slice) (h1 h2 : store) : Prop :=
  ∀ l j, ¬ owns r l j → cell h2 l j = cell h1 l j.
End Store.
End Mem.

#[export] Instance Z_zero : GoZero Z := 0%Z.

(** ** [encoding/json] at one element type

    An executable instance of the [JSON] interface for slices of [int]:
    the documents [json.Marshal] writes for a [[]int] ([null], or an array
    of decimal integers) and a decoder for such documents, white space
    allowed. *)
Module IntJSON.

(** The range of Go's [int] on a 64-bit platform. *)
Definition is_int (z : Z) : bool := (- 2 ^ 63 <=? z) && (z <? 2 ^ 63).

(** The ASCII digit for [d < 10]. *)
Definition digit_byte (d : N) : byte :=
  default "0"%byte (Byte.of_N (48 + d)).

(** The value of an ASCII digit. *)
Definition digit_of_byte (b : byte) : option N :=
  let n := Byte.to_N b in
  if (48 <=? n)%N && (n <=? 57)%N then Some (n - 48)%N else None.

(** The decimal digits of [n], most significant first, in front of [acc];
    [fuel + 1] bounds their number. *)
Fixpoint decimal (fuel : nat) (n : N) (acc : list N) : list N :=
  let acc' := (n mod 10)%N :: acc in
  match fuel with
  | O => acc'
  | S fuel' => if (n / 10 =? 0)%N then acc' else decimal fuel' (n / 10)%N acc'
  end.

(** [strconv.AppendInt(nil, z, 10)] for an [int]: at most 19 digits. *)
Definition format_int (z : Z) : list byte :=
  let ds := digit_byte <$> decimal 18 (Z.abs_N z) [] in
  if z <? 0 then "-"%byte :: ds else ds.

(** The elements of an array, separated by commas. *)
Definition marshal_elems (l : list Z) : list byte :=
  match l with
  | [] => []
  | z :: l' => format_int z ++ (l' ≫= λ y, ","%byte :: format_int y)
  end.

(** [json.Marshal(x)] for [x] of type [[]int]. *)
Definition Marshal (x : goslice Z) : list byte * option error :=
  match x with
  | nil_slice => (["n"; "u"; "l"; "l"]%byte, None)
  | slice_of l => (["["%byte] ++ marshal_elems l ++ ["]"%byte], None)
  end.

(** JSON white space. *)
Definition is_space (b : byte) : bool :=
  match b with
  | " "%byte | x09 | x0a | x0d => true
  | _ => false
  end.

Fixpoint skip_space (b : list byte) : list byte :=
  match b with
  | c :: r => if is_space c then skip_space r else b
  | [] => []
  end.

(** The longest prefix of digits, as their values, and what follows it. *)
Fixpoint scan_digits (b : list byte) : list N * list byte :=
  match b with
  | c :: r =>
      match digit_of_byte c with
      | Some d => let '(ds, r') := scan_digits r in (d :: ds, r')
      | None => ([], b)
      end
  | [] => ([], [])
  end.

Definition value_of (ds : list N) : N :=
  fold_left (λ a d, 10 * a + d)%N ds 0%N.

(** An integer literal at the head of [b], decoded into an [int]: an
    optional minus sign and digits without a superfluous leading zero,
    denoting a number in range. *)
Definition parse_int (b : list byte) : option (Z * list byte) :=
  let '(neg, b1) :=
    match b with
    | "-"%byte :: r => (true, r)
    | _ => (false, b)
    end in
  let '(ds, rest) := scan_digits b1 in
  match ds with
  | [] => None
  | 0%N :: _ :: _ => None
  | _ =>
      let z := if neg : bool then - Z.of_N (value_of ds) else Z.of_N (value_of ds) in
      if is_int z then Some (z, rest) else None
  end.

(** The elements of a non-empty array up to and including the closing
    bracket, which must end the document. [acc] holds the elements decoded
    so far. Every element takes at least one byte, so the number of bytes
    bounds the recursion. *)
Fixpoint parse_elems (fuel : nat) (b : list byte) (acc : list Z)
  : option (list Z) :=
  match fuel with
  | O => None
  | S fuel' =>
      match parse_int (skip_space b) with
      | None => None
      | Some (z, rest) =>
          match skip_space rest with
          | ","%byte :: rest' => parse_elems fuel' rest' (acc ++ [z])
          | "]"%byte :: rest' =>
              match skip_space rest' with
              | [] => Some (acc ++ [z])
              | _ :: _ => None
              end
          | _ => None
          end
      end
  end.

Definition not_an_int_array : error :=
  json_error "cannot unmarshal into Go value of type []int".

(** [json.Unmarshal(b, &x)] for [x] of type [[]int]: [null] stores the nil
    slice, an array of integers stores a new non-nil slice with the
    elements. Any other document is reported as an error, and [x] is then
    returned as it was. *)
Definition Unmarshal (b : list byte) (x : goslice Z) : goslice Z * option error :=
  match skip_space b with
  | "n"%byte :: "u"%byte :: "l"%byte :: "l"%byte :: rest =>
      match skip_space rest with
      | [] => (nil_slice, None)
      | _ :: _ => (x, Some not_an_int_array)
      end
  | "["%byte :: rest =>
      match skip_space rest with
      | "]"%byte :: rest' =>
          match skip_space rest' with
          | [] => (slice_of [], None)
          | _ :: _ => (x, Some not_an_int_array)
          end
      | _ =>
          match parse_elems (length rest) rest [] with
          | Some l => (slice_of l, None)
          | None => (x, Some not_an_int_array)
          end
      end
  | _ => (x, Some not_an_int_array)
  end.

(** What may follow an integer literal: anything but a digit. *)
Definition delimited (rest : list byte) : Prop :=
  match rest with
  | c :: _ => digit_of_byte c = None
  | [] => True
  end.

(** A printed number has a digit, and no superfluous leading zero. *)
Definition canonical (ds : list N) : Prop :=
  match ds with
  | [] => False
  | 0%N :: _ :: _ => False
  | _ => True
  end.

End IntJSON.

(** [encoding/json] at element type [int]. *)
#[export] Instance int_JSON : JSON Z := {|
  json_Marshal := IntJSON.Marshal;
  json_Unmarshal := IntJSON.Unmarshal
|}.


(** ** The rest of the package *)

(** [append(dst, xs...)] on slice values. With nothing to append the result
    is [dst] itself, nil when [dst] is nil; otherwise the result is non-nil
    and holds the elements of [dst] followed by [xs]. *)
Definition go_append {A} (dst : goslice A) (xs : list A) : goslice A :=
  match xs with
  | [] => dst
  | _ :: _ => slice_of (elements dst ++ xs)
  end.



(** [type StructView[T any] interface { Valid() bool; AsStruct() T }] *)
Class StructView (T V : Type) : Type := {
  Valid : V → bool;
  AsStruct : V → T
}.

(** [type ViewCloner[T any, V StructView[T]] interface { View() V; Clone() T }] *)
Class ViewCloner (T V : Type) `{StructView T V} : Type := {
  View : T → V;
  Clone : T → T
}.

Module SliceView.

(** [type SliceView[T ViewCloner[T, V], V StructView[T]] struct { ж []T }] *)
Record t (T V : Type) : Type := mk { ж : goslice T }.
Arguments mk {T V} ж.
Arguments ж {T V} _.

Section Methods.
Context {T V : Type} `{StructView T V} `{!ViewCloner T V}.
Local Abbreviation SliceView := (t T V).

(** [func (v SliceView[T, V]) MarshalJSON() ([]byte, error)] *)
Definition MarshalJSON `{JSON T} (v : SliceView) : list byte * option error :=
  json_Marshal (ж v).

(** [func (v *SliceView[T, V]) UnmarshalJSON(b []byte) error] *)
Definition UnmarshalJSON `{JSON T} (v : SliceView) (b : list byte)
  : SliceView * option error :=
  let '(x, err) := unmarshalJSON b (ж v) in (mk x, err).

(** [func (v SliceView[T, V]) IsNil() bool] *)
Definition IsNil (v : SliceView) : bool := is_nil (ж v).

(** [func (v SliceView[T, V]) Len() int] *)
Definition Len (v : SliceView) : Z := len (ж v).

(** [func (v SliceView[T, V]) At(i int) V] *)
Definition At (v : SliceView) (i : Z) : result V :=
  match index (ж v) i with
  | Ok x => Ok (View x)
  | Panic e => Panic e
  end.

(** [func (v SliceView[T, V]) AppendTo(dst []V) []V]:
    [for _, x := range v.ж { dst = append(dst, x.View()) }; return dst]. *)
Definition AppendTo (v : SliceView) (dst : goslice V) : goslice V :=
  fold_left (λ d x, go_append d [View x]) (elements (ж v)) dst.

(** [func (v SliceView[T, V]) AsSlice() []V] *)
Definition AsSlice (v : SliceView) : goslice V := AppendTo v nil_slice.
End Methods.
End SliceView.

(** [func SliceOfViews[T ViewCloner[T, V], V StructView[T]](x []T) SliceView[T, V]] *)
Definition SliceOfViews {T V} (x : goslice T) : SliceView.t T V := SliceView.mk x.

Module IPPrefixSlice.

(** [type IPPrefixSlice struct { ж Slice[netaddr.IPPrefix] }]. The element
    type [netaddr.IPPrefix] is the parameter [P]. The methods that hand the
    backing slice to package [tsaddr], and the two that copy, are not
    part of this module. *)
Record t (P : Type) : Type := mk { ж : Slice.t P }.
Arguments mk {P} ж.
Arguments ж {P} _.

Section Methods.
Context {P : Type}.
Local Abbreviation IPPrefixSlice := (t P).

(** [func (v IPPrefixSlice) IsNil() bool] *)
Definition IsNil (v : IPPrefixSlice) : bool := Slice.IsNil (ж v).

(** [func (v IPPrefixSlice) Len() int] *)
Definition Len (v : IPPrefixSlice) : Z := Slice.Len (ж v).

(** [func (v IPPrefixSlice) At(i int) netaddr.IPPrefix] *)
Definition At (v : IPPrefixSlice) (i : Z) : result P := Slice.At (ж v) i.

(** [func (v IPPrefixSlice) Unwrap() Slice[netaddr.IPPrefix]] *)
Definition Unwrap (v : IPPrefixSlice) : Slice.t P := ж v.

(** [func (v IPPrefixSlice) MarshalJSON() ([]byte, error)] *)
Definition MarshalJSON `{JSON P} (v : IPPrefixSlice) : list byte * option error :=
  Slice.MarshalJSON (ж v).

(** [func (v *IPPrefixSlice) UnmarshalJSON(b []byte) error] *)
Definition UnmarshalJSON `{JSON P} (v : IPPrefixSlice) (b : list byte)
  : IPPrefixSlice * option error :=
  let '(s, err) := Slice.UnmarshalJSON (ж v) b in (mk s, err).
End Methods.
End IPPrefixSlice.

(** [func IPPrefixSliceOf(x []netaddr.IPPrefix) IPPrefixSlice] *)
Definition IPPrefixSliceOf {P} (x : goslice P) : IPPrefixSlice.t P :=
  IPPrefixSlice.mk (SliceOf x).

(** ** Package [paths] *)

Module paths.

(** What [os.Stat] reports about a file, as far as the package looks. *)
Record FileInfo : Type := { IsDir : bool }.

Section Platform.
(** Package [distro] is outside the package: its type of distributions
    and the three constants that are told apart here. *)
Context {Distro : Type} `{EqDecision Distro}.
Variables (Synology Gokrazy QNAP : Distro).

(** What the calls into the runtime and the operating system answer:
    [runtime.GOOS], [distro.Get()], [distro.DSMVersion()], [os.Stat(name)]
    ([None] when it returns an error) and [os.Getenv(key)]. *)
Record platform : Type := {
  GOOS : string;
  distro_Get : Distro;
  distro_DSMVersion : Z;
  os_Stat : string → option FileInfo;
  os_Getenv : string → string
}.

(** [func DefaultTailscaledSocket() string] *)
Definition DefaultTailscaledSocket (p : platform) : string :=
  if String.eqb (GOOS p) "windows"
  then "\\.\pipe\ProtectedPrefix\Administrators\Tailscale\tailscaled"
  else if String.eqb (GOOS p) "darwin"
  then "/var/run/tailscaled.socket"
  else if decide (distro_Get p = Synology)
  then (if distro_DSMVersion p =? 6
        then "/var/packages/Tailscale/etc/tailscaled.sock"
        else "/var/packages/Tailscale/var/tailscaled.sock")
  else if decide (distro_Get p = Gokrazy)
  then "/perm/tailscaled/tailscaled.sock"
  else if decide (distro_Get p = QNAP)
  then "/tmp/tailscale/tailscaled.sock"
  else match os_Stat p "/var/run" with
       | Some fi =>
           if IsDir fi then "/var/run/tailscale/tailscaled.sock"
           else "tailscaled.sock"
       | None => "tailscaled.sock"
       end.

(** [filepath.Join], outside the package. *)
Variable filepath_Join : list string → string.

(** [func DefaultTailscaledStateFile() string]; [stateFileFunc] is the
    package variable of that name, [None] when it is nil. *)
Definition DefaultTailscaledStateFile (stateFileFunc : option (unit → string))
    (p : platform) : string :=
  match stateFileFunc with
  | Some f => f ()
  | None =>
      if String.eqb (GOOS p) "windows"
      then filepath_Join [os_Getenv p "ProgramData"; "Tailscale"; "server-state.conf"]
      else ""
  end.
End Platform.

Section StateDir.
(** The file system as a state, and the errors of package [os]. *)
Context {FS E : Type}.

(** [os.MkdirAll(path, perm)], and [ensureStateDirPerms(dirPath)] of the
    platform-specific part of the package. *)
Variable os_MkdirAll : string → Z → FS → FS * option E.
Variable ensureStateDirPerms : string → FS → FS * option E.

(** [func MkStateDir(dirPath string) error]; the mode [0700] is octal. *)
Definition MkStateDir (dirPath : string) (fs : FS) : FS * option E :=
  let '(fs1, err) := os_MkdirAll dirPath 448 fs in
  match err with
  | Some e => (fs1, Some e)
  | None => ensureStateDirPerms dirPath fs1
  end.
End StateDir.
End paths.

(** An element type with a view, for examples: a pointer to a struct with
    one integer field ([None] is the nil pointer), and the view that wraps
    the pointer. *)
Record IntRefView : Type := mkIntRefView { ref : option Z }.

#[export] Instance IntRefView_StructView : StructView (option Z) IntRefView := {|
  Valid v := bool_decide (is_Some (ref v));
  AsStruct v := ref v
|}.

#[export] Instance IntRef_ViewCloner : ViewCloner (option Z) IntRefView := {|
  View x := mkIntRefView x;
  Clone x := x
|}.

(** ** Notions used in the statements *)

(** The first position, counted from [i], of an element of [l] accepted by
    [f], or [-1]. *)
Fixpoint find_from {T} (f : T → bool) (l : list T) (i : Z) : Z :=
  match l with
  | [] => -1
  | x :: l' => if f x then i else find_from f l' (i + 1)
  end.

(** A visitor wrapped so that it keeps a log of the entries it is called
    with, in call order. *)
Definition recording {K V St} (f : MapRangeFn K V St)
  : MapRangeFn K V (list (K * V) * St) :=
  λ k v '(log, s), let '(cont, s') := f k v s in (cont, (log ++ [(k, v)], s')).

(** What the slice view relies on from [encoding/json] at the value [C]:
    marshalling it succeeds with a document, which is never empty, and
    unmarshalling that document into a nil slice stores [C]. *)
Definition json_roundtrips {T} `{JSON T} (C : goslice T) : Prop :=
  ∃ b, json_Marshal C = (b, None) ∧ b ≠ [] ∧
       json_Unmarshal b nil_slice = (C, None).

(** The positions at which a visitor with the decision [p] is called when
    it is taken through [order]: everything up to and including the first
    entry it refuses. *)
Fixpoint visited_until {K V} (p : K → V → bool) (order : list (K * V))
  : list (K * V) :=
  match order with
  | [] => []
  | (k, v) :: rest => (k, v) :: (if p k v then visited_until p rest else [])
  end.

(** The map a transforming view presents: the conversion applied to every
    value; nil for nil. *)
Definition gomap_map {K} `{Countable K} {T V} (w : T → V) (m : gomap K T)
  : gomap K V :=
  match m with
  | nil_map => nil_map
  | map_of g => map_of (w <$> g)
  end.

(** Neither Windows nor macOS, and none of the distributions with a path
    of their own. *)
Definition generic_platform {Distro} (Synology Gokrazy QNAP : Distro)
    (p : paths.platform (Distro:=Distro)) : Prop :=
  paths.GOOS p ≠ "windows" ∧ paths.GOOS p ≠ "darwin" ∧
  paths.distro_Get p ≠ Synology ∧ paths.distro_Get p ≠ Gokrazy ∧
  paths.distro_Get p ≠ QNAP.

(** [os.Stat("/var/run")] succeeds and reports a directory. *)
Definition var_run_is_dir {Distro} (p : paths.platform (Distro:=Distro)) : bool :=
  match paths.os_Stat p "/var/run" with
  | Some fi => paths.IsDir fi
  | None => false
  end.

(** * Properties *)

(** ** Worked examples *)

Example IndexFunc_ex :
  Slice.IndexFunc (SliceOf (slice_of [1; 2; 3])) (λ e, e =? 2) = Ok 1.
Proof. reflexivity. Qed.

Example IndexFunc_ex9 :
  Slice.IndexFunc (SliceOf (slice_of [1; 2; 3])) (λ e, e =? 9) = Ok (-1).
Proof. reflexivity. Qed.

Example ContainsFunc_ex :
  Slice.ContainsFunc (SliceOf (slice_of [1; 2; 3])) (λ e, e =? 2) = Ok true.
Proof. reflexivity. Qed.

Example ContainsFunc_ex9 :
  Slice.ContainsFunc (SliceOf (slice_of [1; 2; 3])) (λ e, e =? 9) = Ok false.
Proof. reflexivity. Qed.

Example AsSlice_ex :
  Mem.AsSlice (λ _ n, 2 * n)%nat [[7; 1; 2; 3; 9]]
    (Mem.SliceOf (Mem.mkslice (Some (0, 1)%nat) 3 4))
  = Ok ([[7; 1; 2; 3; 9]; [1; 2; 3; 0; 0; 0]], Mem.mkslice (Some (1, 0)%nat) 3 6).
Proof. reflexivity. Qed.

Example AsSlice_empty_ex :
  Mem.AsSlice (λ _ n, 2 * n)%nat [[7; 1; 2; 3; 9]]
    (Mem.SliceOf (Mem.mkslice (Some (0, 1)%nat) 0 4))
  = Ok ([[7; 1; 2; 3; 9]], Mem.mkslice (Some (0, 1)%nat) 0 0).
Proof. reflexivity. Qed.

Example AsSlice_nil_ex :
  Mem.AsSlice (T:=Z) (λ _ n, 2 * n)%nat [] (Mem.SliceOf (Mem.mkslice None 0 0))
  = Ok ([], Mem.mkslice None 0 0).
Proof. reflexivity. Qed.

Example Marshal_ex :
  String.string_of_list_byte (IntJSON.Marshal (slice_of [1; -20; 300; 0])).1
  = "[1,-20,300,0]"%string.
Proof. reflexivity. Qed.

Example Unmarshal_ex :
  IntJSON.Unmarshal (String.list_byte_of_string " [ 1 , 2 ,3 ] ") nil_slice
  = (slice_of [1; 2; 3], None).
Proof. reflexivity. Qed.

Example Unmarshal_leading_zero_ex :
  (IntJSON.Unmarshal (String.list_byte_of_string "[01]") nil_slice).2
  = Some IntJSON.not_an_int_array.
Proof. reflexivity. Qed.

(** ** The decoding guard *)

Section Decode.
Context {T : Type} `{JSON T}.
Implicit Types (b : list byte) (x : goslice T) (v : Slice.t T).

Lemma unmarshalJSON_non_nil b x :
  is_nil x = false →
  unmarshalJSON b x = (x, Some (errors_New "already initialized")).
Proof. unfold unmarshalJSON. by intros ->. Qed.

Lemma unmarshalJSON_empty x : is_nil x = true → unmarshalJSON [] x = (x, None).
Proof. unfold unmarshalJSON. by intros ->. Qed.

Lemma unmarshalJSON_decode b x :
  is_nil x = true → b ≠ [] → unmarshalJSON b x = json_Unmarshal b x.
Proof. unfold unmarshalJSON. intros -> Hb. by destruct b. Qed.

Lemma UnmarshalJSON_non_nil v b :
  Slice.IsNil v = false →
  Slice.UnmarshalJSON v b = (v, Some (errors_New "already initialized")).
Proof.
  intros Hv. unfold Slice.UnmarshalJSON.
  rewrite unmarshalJSON_non_nil by done. by destruct v.
Qed.

(** A decode that left the view populated makes the next one fail. *)
Lemma UnmarshalJSON_twice v b1 b2 :
  Slice.IsNil (Slice.UnmarshalJSON v b1).1 = false →
  (Slice.UnmarshalJSON (Slice.UnmarshalJSON v b1).1 b2).2
  = Some (errors_New "already initialized").
Proof. intros Hv. by rewrite (UnmarshalJSON_non_nil _ b2 Hv). Qed.
End Decode.

(** ** Indexing and the linear scans *)

Section SliceFacts.
Context {T : Type}.
Implicit Types (v : Slice.t T) (f : T → bool) (l : list T).

Lemma At_Ok v i x :
  Slice.At v i = Ok x ↔ 0 ≤ i ∧ elements (Slice.ж v) !! Z.to_nat i = Some x.
Proof.
  unfold Slice.At, index. destruct (Z.ltb_spec i 0).
  - split; [discriminate | lia].
  - destruct (elements (Slice.ж v) !! Z.to_nat i) eqn:E; split.
    + by intros [= ->].
    + by intros [_ [= ->]].
    + discriminate.
    + intros [_ ?]. discriminate.
Qed.

Lemma At_Panic v i e :
  Slice.At v i = Panic e ↔
  ¬ (0 ≤ i < Slice.Len v) ∧ e = index_out_of_range i (Slice.Len v).
Proof.
  unfold Slice.At, Slice.Len, index, len. destruct (Z.ltb_spec i 0).
  - split; [intros [= <-]; split; [lia | done] | by intros [_ ->]].
  - destruct (elements (Slice.ж v) !! Z.to_nat i) eqn:E.
    + apply lookup_lt_Some in E. split; [discriminate | lia].
    + apply lookup_ge_None in E.
      split; [intros [= <-]; split; [lia | done] | by intros [_ ->]].
Qed.

(** One case of a scan loop: the loop is left, the element read is
    accepted, or the scan goes on with the induction hypothesis. A panic
    of [At] contradicts the loop condition. *)
Ltac loop_step f :=
  first
    [ rewrite drop_ge by (unfold Slice.Len, len in *; lia); done
    | match goal with
      | E : Slice.At _ _ = Panic _ |- _ => apply At_Panic in E as [E _]; lia
      end
    | match goal with
      | E : Slice.At _ _ = Ok _ |- _ =>
          apply At_Ok in E as [_ E]; rewrite (drop_S _ _ _ E); simpl
      end;
      match goal with E : f _ = _ |- _ => rewrite E; simpl end;
      first
        [ done
        | match goal with
          | IH : _ → _ = Ok _ |- _ => rewrite IH by lia
          end;
          repeat f_equal; lia ] ].

Lemma IndexFunc_loop_eq v f i :
  0 ≤ i →
  Slice.IndexFunc_loop v f i
  = Ok (find_from f (drop (Z.to_nat i) (elements (Slice.ж v))) i).
Proof. funelim (Slice.IndexFunc_loop v f i); intros Hi; loop_step f. Qed.

Lemma ContainsFunc_loop_eq v f i :
  0 ≤ i →
  Slice.ContainsFunc_loop v f i
  = Ok (existsb f (drop (Z.to_nat i) (elements (Slice.ж v)))).
Proof. funelim (Slice.ContainsFunc_loop v f i); intros Hi; loop_step f. Qed.

Lemma find_from_spec f l i :
  0 ≤ i →
  let r := find_from f l i in
  (r = -1 ∧ existsb f l = false ∧ ∀ j y, l !! j = Some y → f y = false) ∨
  (i ≤ r ∧ existsb f l = true ∧
   ∃ x, l !! Z.to_nat (r - i) = Some x ∧ f x = true ∧
        ∀ j y, l !! j = Some y → f y = true → (Z.to_nat (r - i) ≤ j)%nat).
Proof.
  revert i. induction l as [| a l IH]; intros i Hi; simpl.
  - left. split_and!; [done | done |]. intros j y. by rewrite lookup_nil.
  - destruct (f a) eqn:Ea.
    + right. split_and!; [lia | done |]. exists a.
      replace (Z.to_nat (i - i)) with 0%nat by lia.
      split_and!; [done | done |]. intros; lia.
    + destruct (IH (i + 1))
        as [(Hr & He & Hall) | (Hr & He & x & Hx & Hfx & Hmin)]; [lia | |].
      * left. split_and!; [done | done |].
        intros [| j] y; simpl; [by intros [= <-] | apply Hall].
      * right. split_and!; [lia | done |]. exists x.
        replace (Z.to_nat (find_from f l (i + 1) - i))
          with (S (Z.to_nat (find_from f l (i + 1) - (i + 1)))) by lia.
        split_and!; [done | done |].
        intros [| j] y; simpl.
        -- intros [= <-] ?. congruence.
        -- intros ? ?. apply le_n_S. eauto.
Qed.
End SliceFacts.

(** ** Map reads *)

Section MapFacts.
Context {K : Type} `{Countable K} {T : Type} `{GoZero T}.

Lemma map_index_Some (m : gomap K T) k v :
  entries m !! k = Some v → map_index m k = (v, true).
Proof. unfold map_index. by intros ->. Qed.

Lemma map_index_None (m : gomap K T) k :
  entries m !! k = None → map_index m k = (zero, false).
Proof. unfold map_index. by intros ->. Qed.

Lemma Has_spec (m : gomap K T) k :
  Map.Has (MapOf m) k = true ↔ is_Some (entries m !! k).
Proof.
  unfold Map.Has, map_index. simpl.
  destruct (entries m !! k); simpl; split; done || by intros [? ?].
Qed.
End MapFacts.

(** ** Copies and the store *)

Module MemFacts.
Import Mem.
Local Open Scope nat_scope.

Section Store.
Context {T : Type} `{GoZero T}.
Variable growcap : nat → nat → nat.
Implicit Types (h : list (list T)) (s r : slice) (l : nat).

Lemma cell_default h l j : default [] (h !! l) !! j = cell h l j.
Proof. unfold cell. destruct (h !! l); simpl; [done | apply lookup_nil]. Qed.

Lemma elems_lookup h s l o i :
  data s = Some (l, o) →
  elems h s !! i = if decide (i < slen s) then cell h l (o + i) else None.
Proof.
  intros Hd. unfold elems. rewrite Hd. case_decide.
  - rewrite lookup_take_lt, lookup_drop by done. apply cell_default.
  - apply lookup_take_ge. lia.
Qed.

Lemma elems_ext h1 h2 s :
  (∀ l j, owns s l j → cell h2 l j = cell h1 l j) →
  slen s ≤ scap s →
  elems h2 s = elems h1 s.
Proof.
  intros Hc Hle. destruct (data s) as [[l o] |] eqn:Hd.
  - apply list_eq. intros i. rewrite !(elems_lookup _ _ _ _ _ Hd).
    case_decide; [| done]. apply Hc. exists o. split; [done | lia].
  - unfold elems. by rewrite Hd.
Qed.

Lemma valid_Some h s l o :
  valid h s = true → data s = Some (l, o) →
  ∃ a, h !! l = Some a ∧ slen s ≤ scap s ∧ o + scap s ≤ length a.
Proof.
  unfold valid. intros Hv Hd. rewrite Hd in Hv.
  destruct (h !! l) as [a |]; [| done]. exists a.
  apply andb_true_iff in Hv as [?%Nat.leb_le ?%Nat.leb_le]. done.
Qed.

Lemma valid_len_cap h s : valid h s = true → slen s ≤ scap s.
Proof.
  intros Hv. destruct (data s) as [[l o] |] eqn:Hd.
  - by destruct (valid_Some _ _ _ _ Hv Hd) as (? & ? & ? & ?).
  - unfold valid in Hv. rewrite Hd in Hv.
    apply andb_true_iff in Hv as [?%Nat.eqb_eq ?%Nat.eqb_eq]. lia.
Qed.

Lemma valid_loc h s l j : valid h s = true → owns s l j → l < length h.
Proof.
  intros Hv (o & Hd & _). destruct (valid_Some _ _ _ _ Hv Hd) as (a & Ha & _).
  by apply lookup_lt_Some in Ha.
Qed.

Lemma abs_eq h1 h2 s r :
  elems h2 r = elems h1 s → (data r = None ↔ data s = None) →
  abs h2 r = abs h1 s.
Proof.
  unfold abs. intros -> Hn.
  destruct (data r), (data s); [done | | | done]; destruct Hn as [H1 H2].
  - by specialize (H2 eq_refl).
  - by specialize (H1 eq_refl).
Qed.

Lemma elems_len_0 h s : slen s = 0 → elems h s = [].
Proof. unfold elems. intros ->. by destruct (data s) as [[l o] |]. Qed.

Lemma write_at_nil (a : list T) pos : write_at a pos [] = a.
Proof. unfold write_at. simpl. rewrite Nat.add_0_r. apply take_drop. Qed.

Lemma alter_write_at_nil h l pos : alter (λ a, write_at a pos []) l h = h.
Proof.
  apply list_eq. intros i. destruct (decide (i = l)) as [-> |].
  - rewrite list_lookup_alter_eq. destruct (h !! l); simpl; [| done].
    by rewrite write_at_nil.
  - by rewrite list_lookup_alter_ne.
Qed.

(** What [AsSlice] computes: either nothing is allocated and the result
    is the zero-capacity re-slice, or the elements are copied to a new
    array at the end of the store. *)
Lemma AsSlice_cases h s :
  (elems h s = [] ∧
   AsSlice growcap h (SliceOf s) = Ok (h, mkslice (data s) 0 0)) ∨
  (elems h s ≠ [] ∧ ∃ c pad,
     length (elems h s) ≤ c ∧ length pad = c - length (elems h s) ∧
     AsSlice growcap h (SliceOf s)
     = Ok (h ++ [elems h s ++ pad],
           mkslice (Some (length h, 0)) (length (elems h s)) c)).
Proof.
  unfold AsSlice, AppendTo, slice3, append. simpl.
  rewrite (elems_len_0 h (mkslice _ 0 0)) by done.
  destruct (elems h s) as [| x xs] eqn:E.
  - left. split; [done |]. simpl. destruct (data s) as [[l o] |]; [| done].
    by rewrite alter_write_at_nil.
  - right. split; [done |]. simpl.
    eexists _, _. split_and!; [| | reflexivity].
    + apply Nat.le_max_l.
    + by rewrite length_replicate.
Qed.

Lemma lookup_app_old h (a : list T) l : l < length h → (h ++ [a]) !! l = h !! l.
Proof. intros. by rewrite lookup_app_l. Qed.

Lemma cell_app_old h (a : list T) l j : l < length h → cell (h ++ [a]) l j = cell h l j.
Proof. intros. unfold cell. by rewrite lookup_app_old. Qed.

Lemma valid_app h (a : list T) s : valid h s = true → valid (h ++ [a]) s = true.
Proof.
  intros Hv. destruct (data s) as [[l o] |] eqn:Hd.
  - destruct (valid_Some _ _ _ _ Hv Hd) as (b & Hb & ? & ?).
    unfold valid in *. rewrite Hd in *.
    rewrite lookup_app_old by (by apply lookup_lt_Some in Hb). done.
  - unfold valid in *. by rewrite Hd in *.
Qed.

Lemma elems_app h (a : list T) s : valid h s = true → elems (h ++ [a]) s = elems h s.
Proof.
  intros Hv. apply elems_ext; [| by eapply valid_len_cap].
  intros l j Ho. apply cell_app_old. by eapply valid_loc.
Qed.

Lemma elems_new h (xs pad : list T) c :
  elems (h ++ [xs ++ pad]) (mkslice (Some (length h, 0)) (length xs) c) = xs.
Proof.
  unfold elems. simpl. rewrite list_lookup_middle by done. simpl.
  by rewrite drop_0, take_app_length.
Qed.

Lemma elems_nonempty_data h s : elems h s ≠ [] → data s ≠ None.
Proof. unfold elems. by destruct (data s). Qed.

Lemma set_index_differs h s i x h2 :
  valid h s = true → set_index h s i x = Ok h2 → differs_only_in s h h2.
Proof.
  unfold set_index. intros Hv Hw. apply valid_len_cap in Hv.
  destruct (_ || _) eqn:Hi; [done |].
  apply orb_false_iff in Hi as [?%Z.ltb_ge ?%Z.leb_gt].
  destruct (data s) as [[l o] |] eqn:Hd; [| done].
  injection Hw as <-. intros l' j' Hno. unfold cell.
  destruct (decide (l' = l)) as [-> |]; [| by rewrite list_lookup_alter_ne].
  rewrite list_lookup_alter_eq. destruct (h !! l) as [a |]; simpl; [| done].
  apply list_lookup_insert_ne. intros <-. apply Hno.
  exists o. split; [done | lia].
Qed.

Lemma differs_elems r h1 h2 s :
  differs_only_in r h1 h2 → slen s ≤ scap s →
  (∀ l j, owns r l j → ¬ owns s l j) →
  elems h2 s = elems h1 s.
Proof.
  intros Hd Hle Hdisj. apply elems_ext; [| done].
  intros l j Ho. apply Hd. intros Hr. by eapply Hdisj.
Qed.

Lemma abs_elems h1 h2 s : elems h2 s = elems h1 s → abs h2 s = abs h1 s.
Proof. intros. by apply abs_eq. Qed.

Lemma abs_elements h1 h2 s r : abs h2 r = abs h1 s → elems h2 r = elems h1 s.
Proof.
  intros E. apply (f_equal elements) in E. revert E.
  unfold abs, elems. by destruct (data r), (data s).
Qed.

(** [AsSlice] returns the elements of [s] in a slice that is valid in the
    new store and has no cell in common with any slice of the old one,
    all of which it leaves as they were. *)
Lemma AsSlice_fresh h s :
  valid h s = true →
  ∃ h' r,
    AsSlice growcap h (SliceOf s) = Ok (h', r) ∧
    abs h' r = abs h s ∧
    valid h' r = true ∧
    (∀ s', valid h s' = true →
       valid h' s' = true ∧ abs h' s' = abs h s' ∧
       ∀ l j, owns r l j → ¬ owns s' l j).
Proof.
  intros Hv.
  destruct (AsSlice_cases h s) as [[E ->] | [E (c & pad & Hc & Hpad & ->)]].
  - eexists _, _. split; [done |]. split_and!.
    + apply abs_eq; [| done]. by rewrite elems_len_0.
    + destruct (data s) as [[l o] |] eqn:Hd.
      * destruct (valid_Some _ _ _ _ Hv Hd) as (a & Ha & ? & ?).
        unfold valid. simpl. rewrite Ha. apply Nat.leb_le. lia.
      * done.
    + intros s' Hs'. split_and!; [done | done |].
      intros l j (o & _ & Hj). simpl in Hj. lia.
  - eexists _, _. split; [done |]. split_and!.
    + apply abs_eq; [by rewrite elems_new |].
      split; [done |]. intros Hn. by apply elems_nonempty_data in E.
    + unfold valid. simpl. rewrite list_lookup_middle by done.
      rewrite length_app, Hpad.
      apply andb_true_iff. split; apply Nat.leb_le; lia.
    + intros s' Hs'. split_and!.
      * by apply valid_app.
      * apply abs_eq; [by apply elems_app | done].
      * intros l j (o & [= <- <-] & _) Ho.
        apply (valid_loc _ _ _ _ Hs') in Ho. lia.
Qed.

(** Without any assumption on the store, [AsSlice] returns and the
    result holds the elements the view holds. *)
Lemma AsSlice_elems h s :
  ∃ h' r, AsSlice growcap h (SliceOf s) = Ok (h', r) ∧ abs h' r = abs h s.
Proof.
  destruct (AsSlice_cases h s) as [[E ->] | [E (c & pad & Hc & Hpad & ->)]].
  - eexists _, _. split; [done |]. apply abs_eq; [| done].
    by rewrite elems_len_0.
  - eexists _, _. split; [done |]. apply abs_eq; [by rewrite elems_new |].
    split; [done |]. intros Hn. by apply elems_nonempty_data in E.
Qed.
End Store.
End MemFacts.

(** ** The integer codec reads back what it writes *)

Module IntJSONFacts.
Import IntJSON.

Lemma digit_cases (d : N) :
  (d < 10)%N →
  d ∈ [0; 1; 2; 3; 4; 5; 6; 7; 8; 9]%N.
Proof.
  intros Hd. rewrite !elem_of_cons.
  assert (d = 0 ∨ d = 1 ∨ d = 2 ∨ d = 3 ∨ d = 4 ∨ d = 5 ∨ d = 6 ∨ d = 7
          ∨ d = 8 ∨ d = 9)%N by lia.
  tauto.
Qed.

Lemma digit_of_digit_byte d : (d < 10)%N → digit_of_byte (digit_byte d) = Some d.
Proof.
  intros Hd%digit_cases. rewrite !elem_of_cons in Hd.
  destruct_or!; subst; try done. by apply elem_of_nil in Hd.
Qed.

Lemma digit_not_punct c d :
  digit_of_byte c = Some d →
  is_space c = false ∧ c ≠ "-"%byte ∧ c ≠ "]"%byte.
Proof. destruct c; simpl; intros; split_and!; done. Qed.

Lemma decimal_app fuel n acc : decimal fuel n acc = decimal fuel n [] ++ acc.
Proof.
  revert n acc. induction fuel as [| fuel IH]; intros n acc; simpl; [done |].
  destruct (n / 10 =? 0)%N; [done |].
  rewrite IH, (IH _ [_]), <- app_assoc. done.
Qed.

Lemma decimal_nonempty fuel n acc : decimal fuel n acc ≠ [].
Proof.
  revert n acc. induction fuel as [| fuel IH]; intros n acc; simpl; [done |].
  destruct (n / 10 =? 0)%N; [done | apply IH].
Qed.

Lemma value_of_snoc ds d : value_of (ds ++ [d]) = (10 * value_of ds + d)%N.
Proof. unfold value_of. by rewrite fold_left_app. Qed.

Lemma decimal_value fuel n :
  (n < 10 ^ N.of_nat (S fuel))%N → value_of (decimal fuel n []) = n.
Proof.
  revert n. induction fuel as [| fuel IH]; intros n Hn.
  - simpl. unfold value_of. simpl. change (10 ^ N.of_nat 1)%N with 10%N in Hn.
    rewrite N.mod_small by done. done.
  - cbn [decimal]. destruct (N.eqb_spec (n / 10) 0) as [E | E].
    + unfold value_of. simpl.
      pose proof (N.div_mod n 10 ltac:(done)) as Hdm. rewrite E in Hdm. lia.
    + rewrite decimal_app, value_of_snoc, IH.
      * pose proof (N.div_mod n 10 ltac:(done)). lia.
      * rewrite Nat2N.inj_succ, N.pow_succ_r' in Hn.
        apply N.Div0.div_lt_upper_bound. lia.
Qed.

Lemma decimal_digits fuel n acc :
  Forall (λ d, d < 10)%N acc → Forall (λ d, d < 10)%N (decimal fuel n acc).
Proof.
  revert n acc. induction fuel as [| fuel IH]; intros n acc Hacc; simpl.
  - constructor; [| done]. by apply N.mod_lt.
  - destruct (n / 10 =? 0)%N.
    + constructor; [| done]. by apply N.mod_lt.
    + apply IH. constructor; [| done]. by apply N.mod_lt.
Qed.

Lemma decimal_canonical fuel n acc :
  (n < 10 ^ N.of_nat (S fuel))%N → n ≠ 0%N ∨ acc = [] →
  canonical (decimal fuel n acc).
Proof.
  revert n acc. induction fuel as [| fuel IH]; intros n acc Hn Hz.
  - simpl. change (10 ^ N.of_nat 1)%N with 10%N in Hn.
    rewrite N.mod_small by done. destruct Hz as [Hz | ->]; [| by destruct n].
    destruct n; [done |]. by destruct acc.
  - cbn [decimal]. destruct (N.eqb_spec (n / 10) 0) as [E | E].
    + assert (n mod 10 = n)%N as ->.
      { pose proof (N.div_mod n 10 ltac:(done)) as Hdm. rewrite E in Hdm. lia. }
      destruct Hz as [Hz | ->]; [| by destruct n].
      destruct n; [done |]. by destruct acc.
    + apply IH; [| by left].
      rewrite Nat2N.inj_succ, N.pow_succ_r' in Hn.
      apply N.Div0.div_lt_upper_bound. lia.
Qed.

Lemma scan_digits_app ds rest :
  Forall (λ d, d < 10)%N ds → delimited rest →
  scan_digits ((digit_byte <$> ds) ++ rest) = (ds, rest).
Proof.
  intros Hds Hrest. induction Hds as [| d ds Hd _ IH].
  - destruct rest as [| c rest]; [done |]. simpl in *. by rewrite Hrest.
  - rewrite fmap_cons. cbn [app scan_digits].
    rewrite digit_of_digit_byte by done. by rewrite IH.
Qed.

Lemma is_int_abs z : is_int z = true → (Z.abs_N z < 10 ^ N.of_nat 19)%N.
Proof.
  unfold is_int. intros [?%Z.leb_le ?%Z.ltb_lt]%andb_true_iff.
  change (10 ^ N.of_nat 19)%N with 10000000000000000000%N. lia.
Qed.

Lemma parse_int_format z rest :
  is_int z = true → delimited rest →
  parse_int (format_int z ++ rest) = Some (z, rest).
Proof.
  intros Hz Hrest. unfold format_int, parse_int.
  pose proof (decimal_value 18 _ (is_int_abs z Hz)) as Hval.
  pose proof (decimal_digits 18 (Z.abs_N z) [] ltac:(constructor)) as Hds.
  pose proof (decimal_canonical 18 (Z.abs_N z) [] (is_int_abs z Hz) ltac:(by right))
    as Hcan.
  destruct (Z.ltb_spec z 0) as [Hneg | Hpos].
  - cbn [app]. rewrite scan_digits_app by done.
    destruct (decimal 18 (Z.abs_N z) []) as [| d ds] eqn:E; [done |].
    rewrite Hval. replace (- Z.of_N (Z.abs_N z)) with z by lia. rewrite Hz.
    destruct d; [| done]. by destruct ds.
  - destruct (decimal 18 (Z.abs_N z) []) as [| d ds] eqn:E; [done |].
    rewrite fmap_cons. cbn [app].
    apply Forall_cons in Hds as [Hd Hds].
    destruct (digit_not_punct _ _ (digit_of_digit_byte d Hd)) as (_ & Hm & _).
    assert (∀ c r, c ≠ "-"%byte →
      match c :: r with
      | "-"%byte :: r' => (true, r')
      | _ => (false, c :: r)
      end = (false, c :: r)) as Hsign.
    { intros c r Hc. by destruct c. }
    rewrite Hsign by done.
    change (digit_byte d :: (digit_byte <$> ds) ++ rest)
      with ((digit_byte <$> d :: ds) ++ rest).
    rewrite scan_digits_app by (done || by constructor).
    rewrite Hval. replace (Z.of_N (Z.abs_N z)) with z by lia. rewrite Hz.
    destruct d; [| done]. by destruct ds.
Qed.

Lemma skip_space_head c r : is_space c = false → skip_space (c :: r) = c :: r.
Proof. simpl. by intros ->. Qed.

(** A printed integer starts with a minus sign or a digit. *)
Lemma format_int_head z rest :
  ∃ c r, format_int z ++ rest = c :: r ∧ is_space c = false ∧ c ≠ "]"%byte.
Proof.
  unfold format_int. destruct (z <? 0).
  - by eexists _, _.
  - pose proof (decimal_digits 18 (Z.abs_N z) [] ltac:(constructor)) as Hds.
    destruct (decimal 18 (Z.abs_N z) []) as [| d ds] eqn:E.
    { by apply decimal_nonempty in E. }
    apply Forall_cons in Hds as [Hd _].
    destruct (digit_not_punct _ _ (digit_of_digit_byte d Hd)) as (? & _ & ?).
    rewrite fmap_cons. by eexists _, _.
Qed.

Lemma marshal_elems_cons z y l :
  marshal_elems (z :: y :: l) = format_int z ++ ","%byte :: marshal_elems (y :: l).
Proof. done. Qed.

Lemma marshal_elems_one z : marshal_elems [z] = format_int z.
Proof. change (marshal_elems [z]) with (format_int z ++ []). apply app_nil_r. Qed.

Lemma marshal_elems_length z l : (length l < length (marshal_elems (z :: l)))%nat.
Proof.
  revert z. induction l as [| y l IH]; intros z.
  - destruct (format_int_head z []) as (c & r & E & _).
    rewrite marshal_elems_one, <- (app_nil_r (format_int z)), E. simpl. lia.
  - rewrite marshal_elems_cons, length_app, !length_cons. specialize (IH y). lia.
Qed.

Lemma parse_elems_marshal l z acc fuel :
  Forall (λ e, is_int e = true) (z :: l) → (length l < fuel)%nat →
  parse_elems fuel (marshal_elems (z :: l) ++ ["]"%byte]) acc = Some (acc ++ z :: l).
Proof.
  revert z acc fuel. induction l as [| y l IH]; intros z acc fuel Hint Hfuel;
    (destruct fuel as [| fuel]; [lia |]);
    apply Forall_cons in Hint as [Hz Hl]; cbn [parse_elems].
  - rewrite marshal_elems_one.
    destruct (format_int_head z ["]"%byte]) as (c & r & E & Hc & _).
    rewrite E, skip_space_head, <- E by done.
    rewrite parse_int_format by done. done.
  - rewrite marshal_elems_cons, <- app_assoc.
    destruct (format_int_head z ((","%byte :: marshal_elems (y :: l)) ++ ["]"%byte]))
      as (c & r & E & Hc & _).
    rewrite E, skip_space_head, <- E by done.
    rewrite parse_int_format by done.
    cbn [app skip_space is_space].
    rewrite IH by (done || simpl in *; lia).
    by rewrite <- app_assoc.
Qed.

(** Decoding what [Marshal] produced gives the slice back, whatever the
    target held; the encoding is never empty. *)
Lemma Unmarshal_Marshal (x y : goslice Z) :
  Forall (λ e, is_int e = true) (elements x) →
  ∃ b, Marshal x = (b, None) ∧ b ≠ [] ∧ Unmarshal b y = (x, None).
Proof.
  intros Hint. destruct x as [| [| z l]]; simpl in Hint.
  - by eexists.
  - by eexists.
  - eexists. split; [done |]. split; [done |].
    unfold Unmarshal. cbn [app skip_space is_space].
    destruct (format_int_head z ((l ≫= λ y, ","%byte :: format_int y) ++ ["]"%byte]))
      as (c & r & E & Hc & Hb).
    assert (marshal_elems (z :: l) ++ ["]"%byte] = c :: r) as E'.
    { simpl. by rewrite <- app_assoc. }
    rewrite E', skip_space_head by done.
    assert (∀ (k1 k2 : goslice Z * option error),
      match c :: r with
      | "]"%byte :: rest' => k1
      | _ => k2
      end = k2) as ->.
    { intros. by destruct c. }
    rewrite <- E', parse_elems_marshal; [done | done |].
    rewrite length_app, length_cons. pose proof (marshal_elems_length z l). lia.
Qed.
End IntJSONFacts.

(** ** The documented properties *)

(** The view of a slice of [int] written as JSON and read into a new view
    is the view one started from: here the library side is the codec of
    [IntJSON], and nothing is assumed. *)
Lemma int_Slice_roundtrip (C : goslice Z) :
  Forall (λ e, IntJSON.is_int e = true) (elements C) →
  ∃ b, Slice.MarshalJSON (SliceOf C) = (b, None) ∧
       Slice.UnmarshalJSON (SliceOf nil_slice) b = (SliceOf C, None).
Proof.
  intros HC.
  destruct (IntJSONFacts.Unmarshal_Marshal C nil_slice HC) as (b & Hm & Hb & Hu).
  exists b. split; [done |].
  unfold Slice.UnmarshalJSON. simpl. rewrite unmarshalJSON_decode by done.
  simpl. by rewrite Hu.
Qed.



(** C2. One-shot decoding. On a view whose backing slice is non-nil,
    [UnmarshalJSON] fails with the error "already initialized" whatever the
    payload, and the view is unchanged; so a second call on the same view
    fails in the same way. *)
Theorem UnmarshalJSON_already_initialized {T} `{JSON T} (v : Slice.t T) :
  Slice.IsNil v = false →
  (∀ b, Slice.UnmarshalJSON v b
        = (v, Some (errors_New "already initialized"))) ∧
  (∀ b1 b2, Slice.UnmarshalJSON (Slice.UnmarshalJSON v b1).1 b2
            = (v, Some (errors_New "already initialized"))).
Proof.
  intros Hv. split; [intros b; by apply UnmarshalJSON_non_nil |].
  intros b1 b2. rewrite (UnmarshalJSON_non_nil v b1 Hv). simpl.
  by apply UnmarshalJSON_non_nil.
Qed.

Lemma UnmarshalJSON_already_initialized_witness :
  Slice.IsNil (SliceOf (slice_of [1])) = false ∧
  (∀ b, Slice.UnmarshalJSON (SliceOf (slice_of [1])) b
        = (SliceOf (slice_of [1]), Some (errors_New "already initialized"))) ∧
  (∀ b1 b2,
     Slice.UnmarshalJSON (Slice.UnmarshalJSON (SliceOf (slice_of [1])) b1).1 b2
     = (SliceOf (slice_of [1]), Some (errors_New "already initialized"))).
Proof.
  split; [reflexivity |].
  exact (UnmarshalJSON_already_initialized (SliceOf (slice_of [1])) eq_refl).
Defined.

(** The empty payload is not accepted by a populated view: the guard on
    the backing slice comes first. *)
Lemma empty_payload_rejected_when_populated :
  Slice.UnmarshalJSON (SliceOf (slice_of [1])) []
  = (SliceOf (slice_of [1]), Some (errors_New "already initialized")) ∧
  Slice.UnmarshalJSON (SliceOf (slice_of [1])) []
  ≠ (SliceOf (slice_of [1]), None).
Proof. split; [reflexivity | discriminate]. Qed.

(** C3, as the code has it. With the empty payload, [UnmarshalJSON] on a
    view whose backing slice is nil returns no error and leaves the view
    as it was; on a view whose backing slice is non-nil it fails with
    "already initialized", the view again unchanged. *)
Theorem UnmarshalJSON_empty_payload {T} `{JSON T} (v : Slice.t T) :
  (Slice.IsNil v = true → Slice.UnmarshalJSON v [] = (v, None)) ∧
  (Slice.IsNil v = false →
   Slice.UnmarshalJSON v [] = (v, Some (errors_New "already initialized"))).
Proof.
  split; intros Hv.
  - unfold Slice.UnmarshalJSON. rewrite unmarshalJSON_empty by done.
    by destruct v.
  - by apply UnmarshalJSON_non_nil.
Qed.

(** C4. [At]. For every slice [S] and index [i]: when [0 <= i < Len()],
    [At(i)] returns the element [S[i]]; [At(i)] panics with the
    index-out-of-range error exactly when [i] is outside that range, and
    with no other error. *)
Theorem At_in_range_or_panic {T} (S : goslice T) (i : Z) :
  let v := SliceOf S in
  (0 ≤ i < Slice.Len v →
   ∃ x, elements S !! Z.to_nat i = Some x ∧ Slice.At v i = Ok x) ∧
  (Slice.At v i = Panic (index_out_of_range i (Slice.Len v)) ↔
   ¬ (0 ≤ i < Slice.Len v)) ∧
  (∀ e, Slice.At v i = Panic e → e = index_out_of_range i (Slice.Len v)).
Proof.
  intros v. split_and!.
  - intros Hi. destruct (Slice.At v i) as [x | e] eqn:E.
    + exists x. split; [| done]. by apply At_Ok in E as [_ E].
    + by apply At_Panic in E as [E _].
  - rewrite At_Panic. split; [by intros [? _] | done].
  - intros e He. by apply At_Panic in He as [_ ->].
Qed.

(** C5. Nil and empty. The view of the nil slice reports [IsNil() = true];
    the view of an empty non-nil slice reports [IsNil() = false] and
    [Len() = 0]; the two views are different values. *)
Theorem nil_and_empty_are_distinct {T} :
  Slice.IsNil (SliceOf (@nil_slice T)) = true ∧
  Slice.IsNil (SliceOf (@slice_of T [])) = false ∧
  Slice.Len (SliceOf (@slice_of T [])) = 0 ∧
  Slice.Len (SliceOf (@nil_slice T)) = 0 ∧
  SliceOf (@nil_slice T) ≠ SliceOf (@slice_of T []).
Proof. split_and!; done. Qed.

(** C6. [AsSlice] is an independent copy. For every slice [s] held by a
    view, valid in the store [h]: [AsSlice] returns a slice [r] with the
    elements of [s] in order (nil for nil); no cell that [r] owns is owned
    by [s], nor by any other slice of [h]; taking the copy changes no slice
    of [h]. Whatever is then written to the cells of [r], an assignment
    [r[i] = x] being such a write, [s] keeps its elements, a later
    [AsSlice] returns them again, and a copy taken before the write keeps
    them as well. *)
Theorem AsSlice_independent_copy {T} `{GoZero T} (growcap : nat → nat → nat)
    (h : list (list T)) (s : Mem.slice) :
  Mem.valid h s = true →
  ∃ h' r,
    Mem.AsSlice growcap h (Mem.SliceOf s) = Ok (h', r) ∧
    Mem.abs h' r = Mem.abs h s ∧
    Mem.valid h' r = true ∧
    (∀ s', Mem.valid h s' = true →
       Mem.valid h' s' = true ∧ Mem.abs h' s' = Mem.abs h s' ∧
       ∀ l j, Mem.owns r l j → ¬ Mem.owns s' l j) ∧
    (∀ i x h2, Mem.set_index h' r i x = Ok h2 → Mem.differs_only_in r h' h2) ∧
    (∀ h2, Mem.differs_only_in r h' h2 →
       Mem.abs h2 s = Mem.abs h s ∧
       ∃ h3 r3, Mem.AsSlice growcap h2 (Mem.SliceOf s) = Ok (h3, r3) ∧
                Mem.abs h3 r3 = Mem.abs h s) ∧
    (∃ h1 r1,
       Mem.AsSlice growcap h' (Mem.SliceOf s) = Ok (h1, r1) ∧
       ∀ h2, Mem.differs_only_in r h1 h2 →
             Mem.abs h2 r1 = Mem.abs h s ∧ Mem.abs h2 s = Mem.abs h s).
Proof.
  intros Hv.
  destruct (MemFacts.AsSlice_fresh growcap h s Hv)
    as (h' & r & HA & Habs & Hvr & Hold).
  destruct (Hold s Hv) as (Hvs & Habs_s & Hdisj).
  exists h', r. split_and!; [done | done | done | done | | |].
  - intros i x h2. by apply MemFacts.set_index_differs.
  - intros h2 Hd.
    assert (Mem.abs h2 s = Mem.abs h s) as Hs2.
    { rewrite <- Habs_s. apply MemFacts.abs_elems.
      eapply MemFacts.differs_elems;
        [done | by eapply MemFacts.valid_len_cap | done]. }
    split; [done |].
    destruct (MemFacts.AsSlice_elems growcap h2 s) as (h3 & r3 & HA3 & Habs3).
    exists h3, r3. split; [done |]. by rewrite Habs3.
  - destruct (MemFacts.AsSlice_fresh growcap h' s Hvs)
      as (h1 & r1 & HA1 & Habs1 & Hvr1 & Hold1).
    exists h1, r1. split; [done |]. intros h2 Hd.
    destruct (Hold1 r Hvr) as (_ & _ & Hdisj_r).
    destruct (Hold1 s Hvs) as (Hvs1 & Habs_s1 & _).
    split.
    + rewrite <- Habs_s, <- Habs1. apply MemFacts.abs_elems.
      eapply MemFacts.differs_elems;
        [done | by eapply MemFacts.valid_len_cap |].
      intros l j Hr Hr1. by eapply Hdisj_r.
    + rewrite <- Habs_s, <- Habs_s1. apply MemFacts.abs_elems.
      eapply MemFacts.differs_elems;
        [done | by eapply MemFacts.valid_len_cap | done].
Qed.

Lemma AsSlice_independent_copy_witness :
  Mem.valid [[7; 1; 2; 3; 9]] (Mem.mkslice (Some (0, 1)%nat) 3 4) = true ∧
  ∃ h' r,
    Mem.AsSlice (λ _ n, 2 * n)%nat [[7; 1; 2; 3; 9]]
      (Mem.SliceOf (Mem.mkslice (Some (0, 1)%nat) 3 4)) = Ok (h', r) ∧
    Mem.abs h' r = slice_of [1; 2; 3].
Proof.
  split; [reflexivity |].
  destruct (AsSlice_independent_copy (λ _ n, 2 * n)%nat [[7; 1; 2; 3; 9]]
              (Mem.mkslice (Some (0, 1)%nat) 3 4) eq_refl)
    as (h' & r & HA & Habs & _).
  exists h', r. split; [exact HA | exact Habs].
Defined.

(** C7. [MapFn.Get]. For every backing map [M], conversion [f] and key
    [k], [Get(k)] is [f] applied to [M[k]]: to the value stored under [k]
    when there is one, and to the zero value of the value type when [k] is
    missing. The conversion is not skipped. *)
Theorem MapFn_Get_converts {K} `{Countable K} {T V} `{GoZero T}
    (M : gomap K T) (f : T → V) (k : K) :
  MapFn.Get (MapFnOf M f) k = f (map_index M k).1 ∧
  (∀ x, entries M !! k = Some x → MapFn.Get (MapFnOf M f) k = f x) ∧
  (entries M !! k = None → MapFn.Get (MapFnOf M f) k = f zero).
Proof.
  split_and!; [done | |]; intros; unfold MapFn.Get; simpl.
  - by erewrite map_index_Some.
  - by rewrite map_index_None.
Qed.

(** C8. [Map.Range] and the stop signal. For every backing map with at
    least two entries, whatever order the entries are enumerated in, a
    visitor that answers "stop" to its first call is called exactly once:
    with the first entry of the enumeration, and with nothing after it. *)
Theorem Range_stops_after_first {K} `{Countable K} {V St}
    (g : gmap K V) (order : list (K * V)) (f : MapRangeFn K V St) (s0 : St) :
  (2 ≤ size g)%nat →
  iteration_order (map_of g) order →
  (∀ k v, (f k v s0).1 = false) →
  ∃ k v,
    order !! 0%nat = Some (k, v) ∧ g !! k = Some v ∧
    Map.Range (MapOf (map_of g)) order (recording f) ([], s0)
    = ([(k, v)], (f k v s0).2).
Proof.
  intros Hsz Hord Hstop. unfold iteration_order in Hord. simpl in Hord.
  destruct order as [| [k v] rest].
  - apply Permutation_length in Hord. rewrite length_map_to_list in Hord.
    simpl in Hord. lia.
  - exists k, v. split_and!; [done | |].
    + apply elem_of_map_to_list. rewrite <- Hord. left.
    + unfold Map.Range. simpl. specialize (Hstop k v).
      destruct (f k v s0) as [c s1]. simpl in *. by subst c.
Qed.

Lemma Range_stops_after_first_witness :
  ∃ k v,
    [(2, 20); (1, 10)] !! 0%nat = Some (k, v) ∧
    ({[1 := 10; 2 := 20]} : gmap Z Z) !! k = Some v ∧
    Map.Range (MapOf (map_of {[1 := 10; 2 := 20]})) [(2, 20); (1, 10)]
      (recording (λ _ _ (n : nat), (false, S n))) ([], 0%nat)
    = ([(k, v)], 1%nat).
Proof.
  apply (Range_stops_after_first {[1 := 10; 2 := 20]} [(2, 20); (1, 10)]
           (λ _ _ (n : nat), (false, S n)) 0%nat).
  - vm_compute. lia.
  - unfold iteration_order. vm_compute.
    first [reflexivity | apply perm_swap].
  - reflexivity.
Defined.

(** C9. [MapFn.GetOk] on a missing key. For every conversion [f] and every
    key [k] that the backing map does not hold, [GetOk(k)] returns [f]
    applied to the zero value of the value type, and [false]: the
    conversion runs although the key is missing. *)
Theorem MapFn_GetOk_missing {K} `{Countable K} {T V} `{GoZero T}
    (M : gomap K T) (f : T → V) (k : K) :
  entries M !! k = None →
  MapFn.GetOk (MapFnOf M f) k = (f zero, false).
Proof.
  intros Hk. unfold MapFn.GetOk. simpl. by rewrite map_index_None.
Qed.

Lemma MapFn_GetOk_missing_witness :
  entries (map_of ({[1 := 10]} : gmap Z Z)) !! 2 = None ∧
  MapFn.GetOk (MapFnOf (map_of ({[1 := 10]} : gmap Z Z)) (λ x, x + 1)) 2
  = (1, false).
Proof.
  split; [vm_compute; reflexivity |].
  exact (MapFn_GetOk_missing (map_of ({[1 := 10]} : gmap Z Z)) (λ x, x + 1) 2
           eq_refl).
Defined.

(** C10. The two scans agree. For every view [v] and predicate [f], both
    [IndexFunc] and [ContainsFunc] return; [ContainsFunc(f)] is true if and
    only if [IndexFunc(f)] is not [-1]; a result [i] of [IndexFunc] other
    than [-1] is an index of the view, the element there satisfies [f], and
    no element at a smaller index does. *)
Theorem IndexFunc_ContainsFunc {T} (v : Slice.t T) (f : T → bool) :
  ∃ i b,
    Slice.IndexFunc v f = Ok i ∧ Slice.ContainsFunc v f = Ok b ∧
    (b = true ↔ i ≠ -1) ∧
    (i = -1 ∨ 0 ≤ i < Slice.Len v) ∧
    (0 ≤ i →
     ∃ x, elements (Slice.ж v) !! Z.to_nat i = Some x ∧ f x = true ∧
          ∀ j y, elements (Slice.ж v) !! j = Some y → f y = true →
                 (Z.to_nat i ≤ j)%nat).
Proof.
  unfold Slice.IndexFunc, Slice.ContainsFunc.
  rewrite IndexFunc_loop_eq, ContainsFunc_loop_eq by lia.
  change (Z.to_nat 0) with 0%nat. rewrite drop_0.
  eexists _, _. split; [done |]. split; [done |].
  destruct (find_from_spec f (elements (Slice.ж v)) 0 ltac:(lia))
    as [(Hr & He & Hall) | (Hr & He & x & Hx & Hfx & Hmin)].
  - rewrite Hr, He. split_and!; [split; [done | lia] | by left | lia].
  - rewrite Z.sub_0_r in *. rewrite He. split_and!.
    + split; [lia | done].
    + right. apply lookup_lt_Some in Hx. unfold Slice.Len, len. lia.
    + intros _. eauto.
Qed.

(** * Further properties of the package *)

(** ** Membership and the scans *)

Section ScanFacts.
Context {T : Type}.
Implicit Types (v : Slice.t T) (f : T → bool).

Lemma existsb_elem_of f (l : list T) :
  existsb f l = true ↔ ∃ x, x ∈ l ∧ f x = true.
Proof.
  rewrite existsb_exists. split; intros (x & Hx & Hf); exists x;
    (split; [by apply list_elem_of_In | done]).
Qed.

End ScanFacts.


(** What the two scans say about the elements. [ContainsFunc(f)] is true
    exactly when some element of the view satisfies [f], and [IndexFunc(f)]
    is [-1] exactly when none does; on a view without elements, nil or
    empty, they are [false] and [-1]. *)
Theorem scans_characterised {T} (v : Slice.t T) (f : T → bool) :
  ∃ b i,
    Slice.ContainsFunc v f = Ok b ∧ Slice.IndexFunc v f = Ok i ∧
    (b = true ↔ ∃ x, x ∈ elements (Slice.ж v) ∧ f x = true) ∧
    (i = -1 ↔ ∀ x, x ∈ elements (Slice.ж v) → f x = false) ∧
    (Slice.Len v = 0 → b = false ∧ i = -1).
Proof.
  unfold Slice.IndexFunc, Slice.ContainsFunc.
  rewrite IndexFunc_loop_eq, ContainsFunc_loop_eq by lia.
  change (Z.to_nat 0) with 0%nat. rewrite drop_0.
  eexists _, _. split; [done |]. split; [done |].
  split; [apply existsb_elem_of |]. split.
  - destruct (find_from_spec f (elements (Slice.ж v)) 0 ltac:(lia))
      as [(Hr & He & Hall) | (Hr & He & x & Hx & Hfx & Hmin)].
    + split; [| done]. intros _ x [j Hj]%list_elem_of_lookup. eauto.
    + split; [lia |]. intros Hall. rewrite Hall in Hfx; [done |].
      apply list_elem_of_lookup. eauto.
  - unfold Slice.Len, len. intros Hl.
    destruct (elements (Slice.ж v)); [done | simpl in Hl; lia].
Qed.

(** ** Decoding, again *)

(** The views a sequence of decodes leaves, one after the other. *)
Lemma decode_all_populated {T} `{JSON T} (v : Slice.t T) (bs : list (list byte)) :
  Slice.IsNil v = false →
  foldl (λ w b, (Slice.UnmarshalJSON w b).1) v bs = v.
Proof.
  intros Hv. induction bs as [| b bs IH]; simpl; [done |].
  by rewrite (UnmarshalJSON_non_nil v b Hv).
Qed.

(** A populated view is never overwritten. Once the backing slice of a
    view is non-nil, any number of further [UnmarshalJSON] calls, with any
    payloads, leave the view as it is, and each of them fails with
    "already initialized". *)
Theorem populated_view_is_final {T} `{JSON T} (v : Slice.t T)
    (bs : list (list byte)) (b : list byte) :
  Slice.IsNil v = false →
  foldl (λ w b, (Slice.UnmarshalJSON w b).1) v bs = v ∧
  Slice.UnmarshalJSON (foldl (λ w b, (Slice.UnmarshalJSON w b).1) v bs) b
  = (v, Some (errors_New "already initialized")).
Proof.
  intros Hv. rewrite decode_all_populated by done.
  split; [done | by apply UnmarshalJSON_non_nil].
Qed.

Lemma populated_view_is_final_witness :
  Slice.IsNil (SliceOf (slice_of [4; 5])) = false ∧
  foldl (λ w b, (Slice.UnmarshalJSON w b).1) (SliceOf (slice_of [4; 5]))
    [[]; ["["; "]"]%byte] = SliceOf (slice_of [4; 5]).
Proof.
  split; [reflexivity |].
  exact (proj1 (populated_view_is_final (SliceOf (slice_of [4; 5]))
                  [[]; ["["; "]"]%byte] [] eq_refl)).
Defined.

(** When a decode reaches the library. [UnmarshalJSON] changes a view only
    if its backing slice was nil and the payload was not empty; in that
    case the new backing slice and the error are exactly what
    [json.Unmarshal] stores and returns when handed a nil slice. *)
Theorem UnmarshalJSON_delegates {T} `{JSON T} (v : Slice.t T) (b : list byte) :
  ((Slice.UnmarshalJSON v b).1 ≠ v → Slice.IsNil v = true ∧ b ≠ []) ∧
  (Slice.IsNil v = true → b ≠ [] →
   Slice.UnmarshalJSON v b
   = (Slice.mk (json_Unmarshal b nil_slice).1, (json_Unmarshal b nil_slice).2)).
Proof.
  destruct v as [x]. split.
  - intros Hch. destruct (is_nil x) eqn:Hx.
    + split; [done |]. intros ->. apply Hch.
      unfold Slice.UnmarshalJSON. simpl. by rewrite unmarshalJSON_empty.
    + exfalso. apply Hch.
      by rewrite (UnmarshalJSON_non_nil (Slice.mk x) b Hx).
  - intros Hx Hb. unfold Slice.UnmarshalJSON. simpl in *.
    rewrite unmarshalJSON_decode by done. destruct x; [| done].
    by destruct (json_Unmarshal b nil_slice).
Qed.

(** ** The sequence of element views *)

Section SliceViewFacts.
Context {T V : Type} `{StructView T V} `{!ViewCloner T V}.
Implicit Types (v : SliceView.t T V) (dst : goslice V).

Lemma go_append_nil {A} (d : goslice A) : go_append d [] = d.
Proof. done. Qed.

Lemma go_append_app {A} (d : goslice A) (xs ys : list A) :
  go_append (go_append d xs) ys = go_append d (xs ++ ys).
Proof.
  destruct xs as [| x xs]; [done |]. destruct ys as [| y ys]; simpl.
  - by rewrite app_nil_r.
  - by rewrite <- app_assoc.
Qed.

Lemma AppendTo_eq v dst :
  SliceView.AppendTo v dst = go_append dst (View <$> elements (SliceView.ж v)).
Proof.
  unfold SliceView.AppendTo. generalize (elements (SliceView.ж v)) as l.
  intros l. revert dst. induction l as [| x l IH]; intros dst; [done |].
  cbn [fold_left]. rewrite IH, go_append_app. done.
Qed.

Lemma SliceView_At_eq v i :
  SliceView.At v i
  = match Slice.At (SliceOf (SliceView.ж v)) i with
    | Ok x => Ok (View x)
    | Panic e => Panic e
    end.
Proof. done. Qed.
End SliceViewFacts.

(** [SliceView.At]. For every backing slice [S] and index [i]: when
    [0 <= i < Len()], [At(i)] returns the view of [S[i]]; it panics with
    the index-out-of-range error exactly when [i] is outside that range. *)
Theorem SliceView_At_in_range_or_panic {T V} `{StructView T V} `{!ViewCloner T V}
    (S : goslice T) (i : Z) :
  let v := SliceOfViews (V:=V) S in
  (0 ≤ i < SliceView.Len v →
   ∃ x, elements S !! Z.to_nat i = Some x ∧ SliceView.At v i = Ok (View x)) ∧
  (SliceView.At v i = Panic (index_out_of_range i (SliceView.Len v)) ↔
   ¬ (0 ≤ i < SliceView.Len v)).
Proof.
  intros v. rewrite SliceView_At_eq.
  change (SliceView.Len v) with (Slice.Len (SliceOf S)).
  change (SliceView.ж v) with S.
  destruct (Slice.At (SliceOf S) i) as [x | e] eqn:E.
  - apply At_Ok in E as [Hi E]. pose proof (lookup_lt_Some _ _ _ E) as Hlt.
    assert (0 ≤ i < Slice.Len (SliceOf S))
      by (unfold Slice.Len, len; simpl in *; lia).
    split; [by eauto |]. split; [done | tauto].
  - apply At_Panic in E as [E ->]. split; [tauto | done].
Qed.

(** [SliceView.AppendTo]. The result holds the elements of [dst] followed
    by the views of the elements of the view, in order. It is nil only when
    [dst] is nil and the view has no element; with an empty view the result
    is [dst] itself. *)
Theorem SliceView_AppendTo_appends {T V} `{StructView T V} `{!ViewCloner T V}
    (v : SliceView.t T V) (dst : goslice V) :
  elements (SliceView.AppendTo v dst)
  = elements dst ++ (View <$> elements (SliceView.ж v)) ∧
  is_nil (SliceView.AppendTo v dst)
  = is_nil dst && bool_decide (SliceView.Len v = 0) ∧
  (SliceView.Len v = 0 → SliceView.AppendTo v dst = dst).
Proof.
  rewrite AppendTo_eq. unfold SliceView.Len, len.
  destruct (elements (SliceView.ж v)) as [| x l]; simpl.
  - rewrite app_nil_r, andb_true_r. done.
  - rewrite andb_false_r. split_and!; [done | done | lia].
Qed.

(** Several views of element views into one destination. Appending a first
    view to [dst] and a second view to the result gives [dst] with the
    element views of the first and then of the second appended, as one
    append of both would. *)
Theorem SliceView_AppendTo_aggregates {T V} `{StructView T V} `{!ViewCloner T V}
    (v1 v2 : SliceView.t T V) (dst : goslice V) :
  SliceView.AppendTo v2 (SliceView.AppendTo v1 dst)
  = go_append dst ((View <$> elements (SliceView.ж v1))
                   ++ (View <$> elements (SliceView.ж v2))) ∧
  elements (SliceView.AppendTo v2 (SliceView.AppendTo v1 dst))
  = elements dst ++ (View <$> elements (SliceView.ж v1))
    ++ (View <$> elements (SliceView.ж v2)).
Proof.
  rewrite !AppendTo_eq, go_append_app. split; [done |].
  destruct (_ ++ _) as [| x l] eqn:E; simpl; [by rewrite app_nil_r | done].
Qed.

(** [SliceView.AsSlice]. The copy has as many elements as the view and
    indexing it agrees with [At] at every index, panics included. It is nil
    whenever the view has no element, also over a backing slice that is
    empty but not nil. *)
Theorem SliceView_AsSlice_views {T V} `{StructView T V} `{!ViewCloner T V}
    (v : SliceView.t T V) :
  elements (SliceView.AsSlice v) = View <$> elements (SliceView.ж v) ∧
  len (SliceView.AsSlice v) = SliceView.Len v ∧
  (∀ i, index (SliceView.AsSlice v) i = SliceView.At v i) ∧
  (is_nil (SliceView.AsSlice v) = true ↔ SliceView.Len v = 0).
Proof.
  unfold SliceView.AsSlice.
  destruct (SliceView_AppendTo_appends v nil_slice) as (He & Hn & _).
  simpl in He, Hn.
  assert (len (SliceView.AppendTo v nil_slice) = SliceView.Len v) as Hlen.
  { unfold len, SliceView.Len. by rewrite He, length_fmap. }
  split_and!; [done | done | |].
  - intros i. unfold SliceView.At, index. rewrite He, Hlen, list_lookup_fmap.
    change (len (SliceView.ж v)) with (SliceView.Len v).
    destruct (i <? 0); [done |].
    by destruct (elements (SliceView.ж v) !! Z.to_nat i).
  - rewrite Hn. apply bool_decide_eq_true.
Qed.

(** The one-shot guard on [SliceView]. On a view of element views whose
    backing slice is non-nil, [UnmarshalJSON] fails with "already
    initialized" for every payload and leaves the view unchanged. *)
Theorem SliceView_UnmarshalJSON_already_initialized {T V} `{JSON T}
    (v : SliceView.t T V) (b : list byte) :
  SliceView.IsNil v = false →
  SliceView.UnmarshalJSON v b = (v, Some (errors_New "already initialized")).
Proof.
  intros Hv. unfold SliceView.UnmarshalJSON.
  rewrite unmarshalJSON_non_nil by done. by destruct v.
Qed.

Lemma SliceView_UnmarshalJSON_already_initialized_witness :
  SliceView.IsNil (SliceOfViews (V:=IntRefView) (slice_of [1])) = false ∧
  SliceView.UnmarshalJSON (SliceOfViews (V:=IntRefView) (slice_of [1])) []
  = (SliceOfViews (slice_of [1]), Some (errors_New "already initialized")).
Proof.
  split; [reflexivity |].
  exact (SliceView_UnmarshalJSON_already_initialized
           (SliceOfViews (V:=IntRefView) (slice_of [1])) [] eq_refl).
Defined.

(** The two sequence views share one wire format. For every backing slice
    [C] that [encoding/json] writes and reads back, [Slice] and [SliceView]
    over [C] marshal to the same bytes, and those bytes decode into a
    nil-backed view of either kind as a view of [C]. *)
Theorem Slice_SliceView_same_wire_format {T V} `{JSON T} (C : goslice T) :
  json_roundtrips C →
  ∃ b, Slice.MarshalJSON (SliceOf C) = (b, None) ∧
       SliceView.MarshalJSON (SliceOfViews (V:=V) C) = (b, None) ∧
       SliceView.UnmarshalJSON (SliceOfViews (V:=V) nil_slice) b
       = (SliceOfViews C, None) ∧
       Slice.UnmarshalJSON (SliceOf nil_slice) b = (SliceOf C, None).
Proof.
  intros (b & Hm & Hb & Hu). exists b. split_and!; [done | done | |].
  - unfold SliceView.UnmarshalJSON. simpl.
    rewrite unmarshalJSON_decode by done. by rewrite Hu.
  - unfold Slice.UnmarshalJSON. simpl.
    rewrite unmarshalJSON_decode by done. by rewrite Hu.
Qed.

Lemma Slice_SliceView_same_wire_format_witness :
  json_roundtrips (slice_of [7; -8]) ∧
  ∃ b, Slice.MarshalJSON (SliceOf (slice_of [7; -8])) = (b, None) ∧
       SliceView.UnmarshalJSON (SliceOfViews (V:=IntRefView) nil_slice) b
       = (SliceOfViews (slice_of [7; -8]), None).
Proof.
  assert (json_roundtrips (slice_of [7; -8])) as Hrt.
  { eexists. split_and!; [reflexivity | done | vm_compute; reflexivity]. }
  split; [exact Hrt |].
  destruct (Slice_SliceView_same_wire_format (V:=IntRefView) (slice_of [7; -8]) Hrt)
    as (b & Hs & _ & Hu & _).
  exists b. split; [exact Hs | exact Hu].
Defined.

(** ** Appending in memory *)

Module AppendFacts.
Import Mem MemFacts.
Local Open Scope nat_scope.

Section Store.
Context {T : Type} `{GoZero T}.
Variable growcap : nat → nat → nat.
Implicit Types (h : list (list T)) (s r dst : slice) (xs : list T).

Lemma elems_length h s : valid h s = true → length (elems h s) = slen s.
Proof.
  intros Hv. destruct (data s) as [[l o] |] eqn:Hd.
  - destruct (valid_Some _ _ _ _ Hv Hd) as (a & Ha & ? & ?).
    unfold elems. rewrite Hd, Ha. simpl.
    rewrite length_take, length_drop. lia.
  - unfold valid in Hv. rewrite Hd in Hv.
    apply andb_true_iff in Hv as [?%Nat.eqb_eq _].
    unfold elems. rewrite Hd. simpl. lia.
Qed.

Lemma write_at_lookup_other (a : list T) pos xs j :
  pos + length xs ≤ length a → ¬ (pos ≤ j < pos + length xs) →
  write_at a pos xs !! j = a !! j.
Proof.
  intros Hlen Hj. unfold write_at.
  destruct (decide (j < pos)).
  - rewrite lookup_app_l by (rewrite length_take; lia).
    by rewrite lookup_take_lt.
  - rewrite lookup_app_r by (rewrite length_take; lia).
    rewrite length_take_le by lia.
    rewrite lookup_app_r by lia. rewrite lookup_drop. f_equal. lia.
Qed.

Lemma write_at_window (a : list T) o n xs :
  o + n + length xs ≤ length a →
  take (n + length xs) (drop o (write_at a (o + n) xs))
  = take n (drop o a) ++ xs.
Proof.
  intros Hlen. unfold write_at.
  rewrite drop_app_le by (rewrite length_take; lia).
  rewrite <- take_drop_commute, app_assoc.
  apply take_app_length'. rewrite length_app, length_take, length_drop. lia.
Qed.

Lemma elements_abs h s : elements (abs h s) = elems h s.
Proof. unfold abs, elems. by destruct (data s). Qed.

Lemma abs_non_nil h s : data s ≠ None → abs h s = slice_of (elems h s).
Proof. unfold abs. by destruct (data s). Qed.

Lemma go_append_abs h h' s r xs :
  xs ≠ [] → data r ≠ None → elems h' r = elems h s ++ xs →
  abs h' r = go_append (abs h s) xs.
Proof.
  intros Hne Hr He. rewrite abs_non_nil, He by done.
  destruct xs; [done |]. unfold go_append. by rewrite elements_abs.
Qed.

(** The three ways [append] can go. *)
Lemma append_cases h dst xs :
  valid h dst = true →
  (xs = [] ∧ append growcap h dst xs = (h, dst)) ∨
  (xs ≠ [] ∧ slen dst + length xs ≤ scap dst ∧
   ∃ l o a, data dst = Some (l, o) ∧ h !! l = Some a ∧
            o + scap dst ≤ length a ∧
            append growcap h dst xs
            = (<[l := write_at a (o + slen dst) xs]> h,
               mkslice (data dst) (slen dst + length xs) (scap dst))) ∨
  (xs ≠ [] ∧ scap dst < slen dst + length xs ∧ ∃ c pad,
     slen dst + length xs ≤ c ∧ length pad = c - (slen dst + length xs) ∧
     append growcap h dst xs
     = (h ++ [(elems h dst ++ xs) ++ pad],
        mkslice (Some (length h, 0)) (slen dst + length xs) c)).
Proof.
  intros Hv. pose proof (valid_len_cap _ _ Hv) as Hle. unfold append.
  destruct xs as [| x xs].
  - left. split; [done |]. simpl. rewrite Nat.add_0_r.
    destruct (Nat.leb_spec (slen dst) (scap dst)); [| lia].
    destruct dst as [[[l o] |] n c]; simpl; [| done].
    by rewrite alter_write_at_nil.
  - right. destruct (Nat.leb_spec (slen dst + length (x :: xs)) (scap dst)) as [Hfit | Hfit].
    + left. split; [done |]. split; [done |].
      destruct (data dst) as [[l o] |] eqn:Hd.
      * destruct (valid_Some _ _ _ _ Hv Hd) as (a & Ha & _ & Hcap).
        exists l, o, a. split_and!; [done | done | done |].
        f_equal. apply list_eq. intros i.
        destruct (decide (i = l)) as [-> |].
        -- rewrite list_lookup_alter_eq, Ha. simpl.
           by rewrite list_lookup_insert_eq by (by eapply lookup_lt_Some).
        -- by rewrite list_lookup_alter_ne, list_lookup_insert_ne.
      * unfold valid in Hv. rewrite Hd in Hv.
        apply andb_true_iff in Hv as [_ ?%Nat.eqb_eq]. simpl in Hfit. lia.
    + right. split; [done |]. split; [done |].
      eexists _, _. split_and!; [| | by rewrite <- app_assoc].
      * apply Nat.le_max_l.
      * by rewrite length_replicate.
Qed.
End Store.
End AppendFacts.

(** The result of [AppendTo], case by case. *)
Lemma append_to_spec {T} `{GoZero T} (growcap : nat → nat → nat)
    (h : list (list T)) (v : Mem.Slice) (dst : Mem.slice) :
  Mem.valid h dst = true →
  ∃ h' r,
    Mem.AppendTo growcap h v dst = (h', r) ∧
    Mem.elems h' r = Mem.elems h dst ++ Mem.elems h (Mem.ж v) ∧
    Mem.abs h' r = go_append (Mem.abs h dst) (Mem.elems h (Mem.ж v)) ∧
    Mem.valid h' r = true ∧
    ((Mem.slen dst + length (Mem.elems h (Mem.ж v)) ≤ Mem.scap dst)%nat →
     length h' = length h ∧ Mem.data r = Mem.data dst ∧
     Mem.scap r = Mem.scap dst) ∧
    ((Mem.scap dst < Mem.slen dst + length (Mem.elems h (Mem.ж v)))%nat →
     length h' = S (length h) ∧ Mem.data r = Some (length h, 0%nat)).
Proof.
  intros Hv. unfold Mem.AppendTo.
  generalize (Mem.elems h (Mem.ж v)) as xs. intros xs.
  pose proof (AppendFacts.elems_length h dst Hv) as Hlen.
  pose proof (MemFacts.valid_len_cap h dst Hv) as Hle.
  destruct (AppendFacts.append_cases growcap h dst xs Hv)
    as [[-> ->] | [(Hne & Hfit & l & o & a & Hd & Ha & Hcap & ->)
                 | (Hne & Hfit & c & pad & Hc & Hpad & ->)]];
    eexists _, _; (split; [reflexivity |]).
  - rewrite app_nil_r. simpl. split_and!; [done | done | done | done | lia].
  - assert (Mem.elems (<[l:=Mem.write_at a (o + Mem.slen dst) xs]> h)
              (Mem.mkslice (Mem.data dst) (Mem.slen dst + length xs) (Mem.scap dst))
            = Mem.elems h dst ++ xs) as He.
    { unfold Mem.elems. simpl. rewrite Hd, Ha.
      rewrite list_lookup_insert_eq by (by eapply lookup_lt_Some). simpl.
      apply AppendFacts.write_at_window. lia. }
    split_and!.
    + done.
    + apply AppendFacts.go_append_abs; [done | | done]. simpl. by rewrite Hd.
    + unfold Mem.valid. simpl. rewrite Hd.
      rewrite list_lookup_insert_eq by (by eapply lookup_lt_Some).
      apply andb_true_iff. split; apply Nat.leb_le; [done |].
      unfold Mem.write_at.
      rewrite !length_app, length_take, length_drop. lia.
    + intros _. by rewrite length_insert.
    + lia.
  - assert (length (Mem.elems h dst ++ xs) = (Mem.slen dst + length xs)%nat) as Hl
      by (rewrite length_app; lia).
    assert (Mem.elems (h ++ [(Mem.elems h dst ++ xs) ++ pad])
              (Mem.mkslice (Some (length h, 0%nat)) (Mem.slen dst + length xs) c)
            = Mem.elems h dst ++ xs) as He.
    { rewrite <- Hl. apply MemFacts.elems_new. }
    split_and!.
    + done.
    + by apply AppendFacts.go_append_abs.
    + unfold Mem.valid. simpl. rewrite list_lookup_middle by done.
      apply andb_true_iff. split; apply Nat.leb_le; [done |].
      rewrite length_app. lia.
    + lia.
    + intros _. rewrite length_app. simpl. split; [lia | done].
Qed.


(** [Slice.AppendTo] in memory. For a destination [dst] valid in the store,
    the result is valid and holds the elements of [dst] followed by those
    of the view, in order; it is nil only when [dst] is nil and the view
    has no element. When the spare capacity of [dst] takes the elements, no
    array is allocated and the result is [dst]'s own array at the same
    offset and capacity; otherwise one array is allocated for it. *)
Theorem AppendTo_appends {T} `{GoZero T} (growcap : nat → nat → nat)
    (h : list (list T)) (v : Mem.Slice) (dst : Mem.slice) :
  Mem.valid h dst = true →
  ∃ h' r,
    Mem.AppendTo growcap h v dst = (h', r) ∧
    Mem.elems h' r = Mem.elems h dst ++ Mem.elems h (Mem.ж v) ∧
    Mem.abs h' r = go_append (Mem.abs h dst) (Mem.elems h (Mem.ж v)) ∧
    Mem.valid h' r = true ∧
    ((Mem.slen dst + length (Mem.elems h (Mem.ж v)) ≤ Mem.scap dst)%nat →
     length h' = length h ∧ Mem.data r = Mem.data dst ∧
     Mem.scap r = Mem.scap dst) ∧
    ((Mem.scap dst < Mem.slen dst + length (Mem.elems h (Mem.ж v)))%nat →
     length h' = S (length h) ∧ Mem.data r = Some (length h, 0%nat)).
Proof. apply append_to_spec. Qed.

Lemma AppendTo_appends_witness :
  Mem.valid [[7; 1; 2; 3; 9]; [5; 0; 0; 0]] (Mem.mkslice (Some (1, 0)%nat) 1 4) = true ∧
  ∃ h' r,
    Mem.AppendTo (λ _ n, 2 * n)%nat [[7; 1; 2; 3; 9]; [5; 0; 0; 0]]
      (Mem.SliceOf (Mem.mkslice (Some (0, 1)%nat) 3 4))
      (Mem.mkslice (Some (1, 0)%nat) 1 4) = (h', r) ∧
    Mem.elems h' r = [5; 1; 2; 3].
Proof.
  split; [reflexivity |].
  destruct (AppendTo_appends (λ _ n, 2 * n)%nat [[7; 1; 2; 3; 9]; [5; 0; 0; 0]]
              (Mem.SliceOf (Mem.mkslice (Some (0, 1)%nat) 3 4))
              (Mem.mkslice (Some (1, 0)%nat) 1 4) eq_refl)
    as (h' & r & HA & He & _).
  exists h', r. split; [exact HA | exact He].
Defined.

Module AppendFrame.
Import Mem MemFacts AppendFacts.
Local Open Scope nat_scope.

Section Store.
Context {T : Type} `{GoZero T}.
Implicit Types (h : list (list T)) (s r dst : slice) (xs : list T).

Lemma write_at_length (a : list T) pos xs :
  pos + length xs ≤ length a → length (write_at a pos xs) = length a.
Proof.
  intros Hlen. unfold write_at.
  rewrite !length_app, length_take, length_drop. lia.
Qed.

(** Writing behind the elements of [dst], inside its capacity, changes no
    cell outside the window of [dst]. *)
Lemma write_in_place_differs h dst l o a xs :
  data dst = Some (l, o) → h !! l = Some a →
  slen dst + length xs ≤ scap dst → o + scap dst ≤ length a →
  differs_only_in dst h (<[l := write_at a (o + slen dst) xs]> h).
Proof.
  intros Hd Ha Hfit Hcap l' j Hno. unfold cell.
  destruct (decide (l' = l)) as [-> |]; [| by rewrite list_lookup_insert_ne].
  rewrite list_lookup_insert_eq by (by eapply lookup_lt_Some).
  rewrite Ha. simpl. apply write_at_lookup_other; [lia |].
  intros Hj. apply Hno. exists o. split; [done | lia].
Qed.

Lemma same_lengths_valid h1 h2 s :
  valid h1 s = true →
  (∀ l, length <$> h2 !! l = length <$> h1 !! l) →
  valid h2 s = true.
Proof.
  intros Hv Hlen. unfold valid in *.
  destruct (data s) as [[l o] |]; [| done].
  specialize (Hlen l). destruct (h1 !! l) as [a1 |]; [| done].
  destruct (h2 !! l) as [a2 |]; [| done].
  simpl in Hlen. injection Hlen as Hlen. by rewrite Hlen.
Qed.
End Store.
End AppendFrame.

(** What [AppendTo] leaves alone. *)
Lemma append_to_frame {T} `{GoZero T} (growcap : nat → nat → nat)
    (h : list (list T)) (v : Mem.Slice) (dst : Mem.slice) :
  Mem.valid h dst = true →
  ∃ h' r,
    Mem.AppendTo growcap h v dst = (h', r) ∧
    Mem.elems h' dst = Mem.elems h dst ∧
    ∀ s, Mem.valid h s = true →
         (∀ l j, Mem.owns dst l j → ¬ Mem.owns s l j) →
         Mem.valid h' s = true ∧ Mem.abs h' s = Mem.abs h s.
Proof.
  intros Hv. unfold Mem.AppendTo.
  generalize (Mem.elems h (Mem.ж v)) as xs. intros xs.
  pose proof (AppendFacts.elems_length h dst Hv) as Hlen.
  pose proof (MemFacts.valid_len_cap h dst Hv) as Hle.
  destruct (AppendFacts.append_cases growcap h dst xs Hv)
    as [[-> ->] | [(Hne & Hfit & l & o & a & Hd & Ha & Hcap & ->)
                 | (Hne & Hfit & c & pad & Hc & Hpad & ->)]];
    eexists _, _; (split; [reflexivity |]).
  - done.
  - pose proof (AppendFrame.write_in_place_differs h dst l o a xs Hd Ha Hfit Hcap)
      as Hdiff.
    split.
    + unfold Mem.elems. rewrite Hd, Ha.
      rewrite list_lookup_insert_eq by (by eapply lookup_lt_Some). simpl.
      pose proof (AppendFacts.write_at_window a o (Mem.slen dst) xs ltac:(lia)) as Hw.
      apply (f_equal (take (Mem.slen dst))) in Hw.
      rewrite take_take, Nat.min_l in Hw by lia. rewrite Hw.
      apply take_app_length'. rewrite length_take, length_drop. lia.
    + intros s Hs Hdisj. split.
      * eapply AppendFrame.same_lengths_valid; [done |].
        intros l'. destruct (decide (l' = l)) as [-> |].
        -- rewrite list_lookup_insert_eq by (by eapply lookup_lt_Some).
           rewrite Ha. simpl. f_equal.
           apply AppendFrame.write_at_length. lia.
        -- by rewrite list_lookup_insert_ne.
      * apply MemFacts.abs_elems.
        eapply MemFacts.differs_elems;
          [done | by eapply MemFacts.valid_len_cap | done].
  - split; [by apply MemFacts.elems_app |].
    intros s Hs _. split; [by apply MemFacts.valid_app |].
    apply MemFacts.abs_elems. by apply MemFacts.elems_app.
Qed.


(** [Slice.AppendTo] writes nowhere but behind [dst]. For a destination
    [dst] valid in the store: the elements of [dst] itself are as before,
    and every slice of the store that shares no cell with the window of
    [dst], the backing slice of the view when it is one of them, is still
    valid and holds the elements it held. *)
Theorem AppendTo_frame {T} `{GoZero T} (growcap : nat → nat → nat)
    (h : list (list T)) (v : Mem.Slice) (dst : Mem.slice) :
  Mem.valid h dst = true →
  ∃ h' r,
    Mem.AppendTo growcap h v dst = (h', r) ∧
    Mem.elems h' dst = Mem.elems h dst ∧
    ∀ s, Mem.valid h s = true →
         (∀ l j, Mem.owns dst l j → ¬ Mem.owns s l j) →
         Mem.valid h' s = true ∧ Mem.abs h' s = Mem.abs h s.
Proof. apply append_to_frame. Qed.

Lemma AppendTo_frame_witness :
  Mem.valid [[7; 1; 2; 3; 9]; [5; 0; 0; 0]] (Mem.mkslice (Some (1, 0)%nat) 1 4) = true ∧
  ∃ h' r,
    Mem.AppendTo (λ _ n, 2 * n)%nat [[7; 1; 2; 3; 9]; [5; 0; 0; 0]]
      (Mem.SliceOf (Mem.mkslice (Some (0, 1)%nat) 3 4))
      (Mem.mkslice (Some (1, 0)%nat) 1 4) = (h', r) ∧
    Mem.elems h' (Mem.mkslice (Some (1, 0)%nat) 1 4) = [5].
Proof.
  split; [reflexivity |].
  destruct (AppendTo_frame (λ _ n, 2 * n)%nat [[7; 1; 2; 3; 9]; [5; 0; 0; 0]]
              (Mem.SliceOf (Mem.mkslice (Some (0, 1)%nat) 3 4))
              (Mem.mkslice (Some (1, 0)%nat) 1 4) eq_refl)
    as (h' & r & HA & He & _).
  exists h', r. split; [exact HA | exact He].
Defined.

(** Several views into one destination. Appending a first view to [dst]
    and a second view to the result gives the elements of [dst], then
    those of the first view, then those of the second, provided the
    backing slice of the second shares no cell with the window of [dst]. *)
Theorem AppendTo_aggregates {T} `{GoZero T} (growcap : nat → nat → nat)
    (h : list (list T)) (v1 v2 : Mem.Slice) (dst : Mem.slice) :
  Mem.valid h dst = true →
  Mem.valid h (Mem.ж v2) = true →
  (∀ l j, Mem.owns dst l j → ¬ Mem.owns (Mem.ж v2) l j) →
  ∃ h1 r1 h2 r2,
    Mem.AppendTo growcap h v1 dst = (h1, r1) ∧
    Mem.AppendTo growcap h1 v2 r1 = (h2, r2) ∧
    Mem.elems h2 r2
    = Mem.elems h dst ++ Mem.elems h (Mem.ж v1) ++ Mem.elems h (Mem.ж v2).
Proof.
  intros Hd Hv2 Hdisj.
  destruct (append_to_spec growcap h v1 dst Hd)
    as (h1 & r1 & HA1 & He1 & _ & Hr1 & _).
  destruct (append_to_frame growcap h v1 dst Hd)
    as (h1' & r1' & HA1' & _ & Hframe).
  rewrite HA1 in HA1'. injection HA1' as <- <-.
  destruct (Hframe _ Hv2 Hdisj) as (_ & Habs2).
  apply MemFacts.abs_elements in Habs2.
  destruct (append_to_spec growcap h1 v2 r1 Hr1) as (h2 & r2 & HA2 & He2 & _).
  exists h1, r1, h2, r2. split_and!; [done | done |].
  by rewrite He2, He1, Habs2, <- app_assoc.
Qed.

Lemma AppendTo_aggregates_witness :
  Mem.valid [[1; 2]; [3]; [0; 0; 0; 0]] (Mem.mkslice (Some (2, 0)%nat) 0 4) = true ∧
  ∃ h1 r1 h2 r2,
    Mem.AppendTo (λ _ n, 2 * n)%nat [[1; 2]; [3]; [0; 0; 0; 0]]
      (Mem.SliceOf (Mem.mkslice (Some (0, 0)%nat) 2 2))
      (Mem.mkslice (Some (2, 0)%nat) 0 4) = (h1, r1) ∧
    Mem.AppendTo (λ _ n, 2 * n)%nat h1
      (Mem.SliceOf (Mem.mkslice (Some (1, 0)%nat) 1 1)) r1 = (h2, r2) ∧
    Mem.elems h2 r2 = [1; 2; 3].
Proof.
  split; [reflexivity |].
  apply (AppendTo_aggregates (λ _ n, 2 * n)%nat [[1; 2]; [3]; [0; 0; 0; 0]]
           (Mem.SliceOf (Mem.mkslice (Some (0, 0)%nat) 2 2))
           (Mem.SliceOf (Mem.mkslice (Some (1, 0)%nat) 1 1))
           (Mem.mkslice (Some (2, 0)%nat) 0 4)).
  - reflexivity.
  - reflexivity.
  - intros l j (o & [= <- <-] & _) (o' & [=] & _).
Defined.

(** When [Slice.AsSlice] allocates. [AsSlice] never panics. Over a view
    without elements it allocates nothing and returns the backing slice cut
    to length and capacity 0, so that an append to the result cannot reach
    the backing array; over a view with elements it allocates exactly one
    array and returns a slice at its start, as long as the view. *)
Theorem AsSlice_allocation {T} `{GoZero T} (growcap : nat → nat → nat)
    (h : list (list T)) (s : Mem.slice) :
  ∃ h' r,
    Mem.AsSlice growcap h (Mem.SliceOf s) = Ok (h', r) ∧
    (Mem.elems h s = [] → h' = h ∧ r = Mem.mkslice (Mem.data s) 0 0) ∧
    (Mem.elems h s ≠ [] →
     length h' = S (length h) ∧ Mem.data r = Some (length h, 0%nat) ∧
     Mem.slen r = length (Mem.elems h s) ∧ (Mem.slen r ≤ Mem.scap r)%nat).
Proof.
  destruct (MemFacts.AsSlice_cases growcap h s)
    as [[E ->] | [E (c & pad & Hc & Hpad & ->)]]; eexists _, _;
    (split; [reflexivity |]); split; try done.
  intros _. rewrite length_app. simpl. split_and!; [lia | done | done | done].
Qed.

(** ** The map views *)

Section RangeFacts.
Context {K V St : Type}.
Implicit Types (f : MapRangeFn K V St) (order log : list (K * V)) (s : St).

(** Recording does not change what the visitor does; what it logs is an
    initial part of the enumeration, and is not empty unless the
    enumeration is. *)
Lemma range_loop_recording f order log0 s0 :
  ∃ vis,
    range_loop (recording f) order (log0, s0)
    = (log0 ++ vis, range_loop f order s0) ∧
    vis `prefix_of` order ∧ (order ≠ [] → vis ≠ []).
Proof.
  revert log0 s0. induction order as [| [k v] rest IH]; intros log0 s0.
  - exists []. by rewrite app_nil_r.
  - simpl. destruct (f k v s0) as [c s1] eqn:E. destruct c; simpl.
    + destruct (IH (log0 ++ [(k, v)]) s1) as (vis & -> & Hp & _).
      exists ((k, v) :: vis). rewrite <- app_assoc.
      split_and!; [done | by apply prefix_cons | done].
    + exists [(k, v)]. split_and!; [done | | done].
      apply prefix_cons, prefix_nil.
Qed.

Lemma range_loop_never_stops f order log0 s0 :
  (∀ k v s, (f k v s).1 = true) →
  (range_loop (recording f) order (log0, s0)).1 = log0 ++ order.
Proof.
  intros Hgo. revert log0 s0.
  induction order as [| [k v] rest IH]; intros log0 s0.
  - by rewrite app_nil_r.
  - simpl. specialize (Hgo k v s0). destruct (f k v s0) as [c s1].
    simpl in Hgo. subst c. simpl. by rewrite IH, <- app_assoc.
Qed.

Lemma range_loop_decision f (p : K → V → bool) order log0 s0 :
  (∀ k v s, (f k v s).1 = p k v) →
  (range_loop (recording f) order (log0, s0)).1 = log0 ++ visited_until p order.
Proof.
  intros Hp. revert log0 s0.
  induction order as [| [k v] rest IH]; intros log0 s0.
  - by rewrite app_nil_r.
  - simpl. specialize (Hp k v s0). destruct (f k v s0) as [c s1].
    simpl in Hp. subst c. destruct (p k v); simpl.
    + by rewrite IH, <- app_assoc.
    + done.
Qed.

Lemma visited_until_spec (p : K → V → bool) order :
  visited_until p order `prefix_of` order ∧
  (∀ j k v, (S j < length (visited_until p order))%nat →
            visited_until p order !! j = Some (k, v) → p k v = true) ∧
  ((length (visited_until p order) < length order)%nat →
   ∃ k v, last (visited_until p order) = Some (k, v) ∧ p k v = false).
Proof.
  induction order as [| [k v] rest (IHp & IHa & IHl)]; simpl.
  - split_and!; [done | intros; lia | intros; lia].
  - destruct (p k v) eqn:E.
    + split_and!.
      * by apply prefix_cons.
      * intros [| j] k' v' Hj; simpl.
        -- by intros [= <- <-].
        -- apply IHa. simpl in Hj. lia.
      * intros Hlt. destruct IHl as (k' & v' & Hl & Hp); [simpl in Hlt; lia |].
        exists k', v'. split; [| done].
        destruct (visited_until p rest); [done |]. by rewrite last_cons, Hl.
    + split_and!.
      * apply prefix_cons, prefix_nil.
      * intros j k' v' Hj. simpl in Hj. lia.
      * intros _. by exists k, v.
Qed.
End RangeFacts.

(** The accessors of [Map] agree with one another. [GetOk(k)] is the pair
    of [Get(k)] and [Has(k)]; [Has(k)] is true exactly when the backing map
    holds [k]; [Get(k)] is the value stored under [k], and the zero value
    of the value type when [k] is missing. *)
Theorem Map_accessors_agree {K} `{Countable K} {V} `{GoZero V}
    (m : gomap K V) (k : K) :
  Map.GetOk (MapOf m) k = (Map.Get (MapOf m) k, Map.Has (MapOf m) k) ∧
  (Map.Has (MapOf m) k = true ↔ is_Some (entries m !! k)) ∧
  (∀ x, entries m !! k = Some x → Map.Get (MapOf m) k = x) ∧
  (entries m !! k = None → Map.Get (MapOf m) k = zero).
Proof.
  unfold Map.GetOk, Map.Get, Map.Has, map_index. simpl.
  destruct (entries m !! k) as [x |]; simpl.
  - split_and!; [done | | by intros ? [= ->] | done].
    split; [by eauto | done].
  - split_and!; [done | | done | done].
    split; [done | by intros [? ?]].
Qed.

(** A nil map reads as an empty one. The views of the nil map and of an
    empty map differ in [IsNil] only: both have [Len() = 0], hold no key,
    return the zero value from [Get], and [Range] over either calls the
    visitor not once. *)
Theorem nil_map_reads_as_empty {K} `{Countable K} {V} `{GoZero V} :
  Map.IsNil (MapOf (@nil_map K _ _ V)) = true ∧
  Map.IsNil (MapOf (@map_of K _ _ V ∅)) = false ∧
  ∀ m : gomap K V, m = nil_map ∨ m = map_of ∅ →
    Map.Len (MapOf m) = 0 ∧
    (∀ k, Map.GetOk (MapOf m) k = (zero, false)) ∧
    ∀ St (f : MapRangeFn K V St) order s0,
      iteration_order m order →
      Map.Range (MapOf m) order (recording f) ([], s0) = ([], s0).
Proof.
  split; [done |]. split; [done |].
  intros m Hm.
  assert (entries m = ∅) as He by (by destruct Hm as [-> | ->]).
  split_and!.
  - unfold Map.Len, map_len. simpl. by rewrite He, map_size_empty.
  - intros k. unfold Map.GetOk, map_index. simpl.
    by rewrite He, lookup_empty.
  - intros St f order s0 Hord. unfold iteration_order in Hord.
    rewrite He, map_to_list_empty in Hord.
    by apply Permutation_nil_r in Hord as ->.
Qed.

(** [Map.Range] with a visitor that never stops. Whatever order the
    entries are enumerated in, the visitor is called on every entry of the
    map exactly once, in that order: as many calls as [Len()], no key
    twice, every pair one the map holds. *)
Theorem Range_visits_every_entry {K} `{Countable K} {V St}
    (m : gomap K V) (order : list (K * V)) (f : MapRangeFn K V St) (s0 : St) :
  iteration_order m order →
  (∀ k v s, (f k v s).1 = true) →
  let log := (Map.Range (MapOf m) order (recording f) ([], s0)).1 in
  log = order ∧
  Z.of_nat (length log) = Map.Len (MapOf m) ∧
  NoDup log.*1 ∧
  ∀ k v, (k, v) ∈ log ↔ entries m !! k = Some v.
Proof.
  intros Hord Hgo log. unfold iteration_order in Hord.
  assert (log = order) as ->.
  { unfold log, Map.Range. by rewrite range_loop_never_stops. }
  split; [done |]. split_and!.
  - unfold Map.Len, map_len. simpl.
    by rewrite Hord, length_map_to_list.
  - rewrite Hord. apply NoDup_fst_map_to_list.
  - intros k v. rewrite Hord. apply elem_of_map_to_list.
Qed.

Lemma Range_visits_every_entry_witness :
  iteration_order (map_of ({[1 := 10; 2 := 20]} : gmap Z Z)) [(2, 20); (1, 10)] ∧
  (Map.Range (MapOf (map_of {[1 := 10; 2 := 20]})) [(2, 20); (1, 10)]
     (recording (λ _ _ (n : nat), (true, S n))) ([], 0%nat)).1
  = [(2, 20); (1, 10)].
Proof.
  assert (iteration_order (map_of ({[1 := 10; 2 := 20]} : gmap Z Z))
            [(2, 20); (1, 10)]) as Hord.
  { unfold iteration_order. vm_compute. first [reflexivity | apply perm_swap]. }
  split; [exact Hord |].
  exact (proj1 (Range_visits_every_entry (map_of {[1 := 10; 2 := 20]})
                  [(2, 20); (1, 10)] (λ _ _ (n : nat), (true, S n)) 0%nat
                  Hord (λ _ _ _, eq_refl))).
Defined.

(** [Map.Range] and a visitor that stops somewhere. For every visitor and
    every enumeration of the entries, the entries the visitor is called
    with are an initial part of the enumeration, without a repeated key
    and each one held by the map; the visitor is called at least once
    unless the map has no entry; and the closure is left in the state the
    same calls leave it in without the log. *)
Theorem Range_visits_a_prefix {K} `{Countable K} {V St}
    (m : gomap K V) (order : list (K * V)) (f : MapRangeFn K V St) (s0 : St) :
  iteration_order m order →
  let run := Map.Range (MapOf m) order (recording f) ([], s0) in
  run.1 `prefix_of` order ∧
  NoDup run.1.*1 ∧
  (∀ k v, (k, v) ∈ run.1 → entries m !! k = Some v) ∧
  (Map.Len (MapOf m) ≠ 0 → run.1 ≠ []) ∧
  run.2 = Map.Range (MapOf m) order f s0.
Proof.
  intros Hord run. unfold iteration_order in Hord.
  destruct (range_loop_recording f order [] s0) as (vis & Hrun & Hpre & Hne).
  unfold run, Map.Range. rewrite Hrun. simpl.
  destruct Hpre as [rest ->].
  split_and!.
  - by exists rest.
  - assert (NoDup (vis ++ rest).*1) as Hnd
      by (rewrite Hord; apply NoDup_fst_map_to_list).
    rewrite fmap_app in Hnd. by apply NoDup_app in Hnd as [? _].
  - intros k v Hin. apply elem_of_map_to_list. rewrite <- Hord.
    apply elem_of_app. by left.
  - intros Hlen. apply Hne. intros E. apply Hlen.
    unfold Map.Len, map_len. simpl.
    by rewrite <- length_map_to_list, <- Hord, E.
  - done.
Qed.

Lemma Range_visits_a_prefix_witness :
  iteration_order (map_of ({[1 := 10; 2 := 20]} : gmap Z Z)) [(2, 20); (1, 10)] ∧
  (Map.Range (MapOf (map_of {[1 := 10; 2 := 20]})) [(2, 20); (1, 10)]
     (recording (λ k _ (n : nat), (k =? 1, S n))) ([], 0%nat)).1
  `prefix_of` [(2, 20); (1, 10)].
Proof.
  assert (iteration_order (map_of ({[1 := 10; 2 := 20]} : gmap Z Z))
            [(2, 20); (1, 10)]) as Hord.
  { unfold iteration_order. vm_compute. first [reflexivity | apply perm_swap]. }
  split; [exact Hord |].
  exact (proj1 (Range_visits_a_prefix (map_of {[1 := 10; 2 := 20]})
                  [(2, 20); (1, 10)] (λ k _ (n : nat), (k =? 1, S n)) 0%nat Hord)).
Defined.

(** [Map.Range] stops at the first refusal. When the answer of the visitor
    depends on the entry only, the visitor is called on the entries of the
    enumeration up to and including the first one it refuses, and on
    nothing after it: every entry visited before the last was accepted, and
    if an entry was left out then the last one visited was refused. *)
Theorem Range_stops_at_first_refusal {K} `{Countable K} {V St}
    (m : gomap K V) (order : list (K * V)) (f : MapRangeFn K V St)
    (p : K → V → bool) (s0 : St) :
  (∀ k v s, (f k v s).1 = p k v) →
  let log := (Map.Range (MapOf m) order (recording f) ([], s0)).1 in
  log = visited_until p order ∧
  log `prefix_of` order ∧
  (∀ j k v, (S j < length log)%nat → log !! j = Some (k, v) → p k v = true) ∧
  ((length log < length order)%nat →
   ∃ k v, last log = Some (k, v) ∧ p k v = false).
Proof.
  intros Hp log.
  assert (log = visited_until p order) as ->.
  { unfold log, Map.Range. by rewrite (range_loop_decision f p). }
  split; [done |]. apply visited_until_spec.
Qed.

Lemma Range_stops_at_first_refusal_witness :
  (Map.Range (MapOf (map_of ({[1 := 10; 2 := 20; 3 := 30]} : gmap Z Z)))
     [(3, 30); (1, 10); (2, 20)]
     (recording (λ k _ (n : nat), (k =? 3, S n))) ([], 0%nat)).1
  = [(3, 30); (1, 10)].
Proof.
  exact (proj1 (Range_stops_at_first_refusal
                  (map_of ({[1 := 10; 2 := 20; 3 := 30]} : gmap Z Z))
                  [(3, 30); (1, 10); (2, 20)]
                  (λ k _ (n : nat), (k =? 3, S n)) (λ k _, k =? 3) 0%nat
                  (λ _ _ _, eq_refl))).
Defined.

Section MapFnFacts.
Context {K : Type} `{Countable K} {T V : Type}.

Lemma entries_gomap_map (w : T → V) (M : gomap K T) :
  entries (gomap_map w M) = w <$> entries M.
Proof. destruct M; simpl; [by rewrite fmap_empty | done]. Qed.

Lemma range_loop_converted {St} (w : T → V) (f : MapRangeFn K V St)
    (order : list (K * T)) (s : St) :
  range_loop (λ k v, f k (w v)) order s
  = range_loop f (prod_map id w <$> order) s.
Proof.
  revert s. induction order as [| [k v] rest IH]; intros s; [done |].
  simpl. destruct (f k (w v) s) as [c s1]. destruct c; simpl; [apply IH | done].
Qed.
End MapFnFacts.

(** A transforming view reads as a view of the converted map. [IsNil],
    [Len] and [Has] of [MapFn] over [M] with conversion [w] are those of
    [Map] over the map of converted values; [GetOk] is the pair of [Get]
    and [Has]; on a key the map holds, [GetOk] returns the converted value
    and [true], as the plain view of the converted map does. On a missing
    key the two agree if and only if the conversion takes the zero value to
    the zero value. *)
Theorem MapFn_reads_as_converted_Map {K} `{Countable K} {T V}
    `{GoZero T} `{GoZero V} (M : gomap K T) (w : T → V) (k : K) :
  MapFn.IsNil (MapFnOf M w) = Map.IsNil (MapOf (gomap_map w M)) ∧
  MapFn.Len (MapFnOf M w) = Map.Len (MapOf (gomap_map w M)) ∧
  MapFn.Has (MapFnOf M w) k = Map.Has (MapOf (gomap_map w M)) k ∧
  MapFn.GetOk (MapFnOf M w) k
  = (MapFn.Get (MapFnOf M w) k, MapFn.Has (MapFnOf M w) k) ∧
  (∀ x, entries M !! k = Some x →
        MapFn.GetOk (MapFnOf M w) k = (w x, true) ∧
        Map.GetOk (MapOf (gomap_map w M)) k = (w x, true)) ∧
  (entries M !! k = None →
   (MapFn.GetOk (MapFnOf M w) k = Map.GetOk (MapOf (gomap_map w M)) k
    ↔ w zero = zero)).
Proof.
  unfold MapFn.IsNil, MapFn.Len, MapFn.Has, MapFn.GetOk, MapFn.Get,
    Map.IsNil, Map.Len, Map.Has, Map.GetOk, map_len, map_index. simpl.
  rewrite entries_gomap_map, map_size_fmap, lookup_fmap.
  split_and!.
  - by destruct M.
  - done.
  - by destruct (entries M !! k).
  - by destruct (entries M !! k).
  - by intros x ->.
  - intros ->. simpl. split; [by intros [= ->] | by intros ->].
Qed.

(** [MapFn.Range] hands the visitor converted values. Ranging over the
    transforming view in some order is ranging over the plain view of the
    converted map in the same order, the conversion applied to each value;
    that order is an enumeration of the converted map whenever the given
    one is an enumeration of the backing map. *)
Theorem MapFn_Range_converts {K} `{Countable K} {T V St}
    (M : gomap K T) (w : T → V) (order : list (K * T))
    (f : MapRangeFn K V St) (s : St) :
  MapFn.Range (MapFnOf M w) order f s
  = Map.Range (MapOf (gomap_map w M)) (prod_map id w <$> order) f s ∧
  (iteration_order M order →
   iteration_order (gomap_map w M) (prod_map id w <$> order)) ∧
  ((∀ k v s', (f k v s').1 = true) →
   ∀ s0, (MapFn.Range (MapFnOf M w) order (recording f) ([], s0)).1
         = prod_map id w <$> order).
Proof.
  unfold MapFn.Range, Map.Range. simpl. split_and!.
  - apply range_loop_converted.
  - unfold iteration_order. intros Hord.
    by rewrite entries_gomap_map, map_to_list_fmap, Hord.
  - intros Hgo s0. rewrite range_loop_converted.
    by rewrite range_loop_never_stops.
Qed.

(** ** The prefix view *)

(** [IPPrefixSlice] is the [Slice] it wraps. For every backing slice [x]:
    [Unwrap] of [IPPrefixSliceOf(x)] is [SliceOf(x)]; [IsNil] holds exactly
    for the nil slice and [Len] is the number of elements; [At(i)] returns
    [x[i]] when [0 <= i < Len()] and panics with the index-out-of-range
    error otherwise; and [UnmarshalJSON] on a non-nil backing slice fails
    with "already initialized", the view unchanged. *)
Theorem IPPrefixSlice_accessors {P} `{JSON P} (x : goslice P) (i : Z) :
  let v := IPPrefixSliceOf x in
  IPPrefixSlice.Unwrap v = SliceOf x ∧
  (IPPrefixSlice.IsNil v = true ↔ x = nil_slice) ∧
  IPPrefixSlice.Len v = Z.of_nat (length (elements x)) ∧
  (0 ≤ i < IPPrefixSlice.Len v →
   ∃ e, elements x !! Z.to_nat i = Some e ∧ IPPrefixSlice.At v i = Ok e) ∧
  (¬ (0 ≤ i < IPPrefixSlice.Len v) →
   IPPrefixSlice.At v i = Panic (index_out_of_range i (IPPrefixSlice.Len v))) ∧
  (IPPrefixSlice.IsNil v = false →
   ∀ b, IPPrefixSlice.UnmarshalJSON v b
        = (v, Some (errors_New "already initialized"))).
Proof.
  intros v. split_and!.
  - done.
  - unfold IPPrefixSlice.IsNil, Slice.IsNil. simpl. by destruct x.
  - done.
  - intros Hi. change (IPPrefixSlice.At v i) with (Slice.At (SliceOf x) i).
    destruct (Slice.At (SliceOf x) i) as [e | e] eqn:E.
    + exists e. split; [| done]. by apply At_Ok in E as [_ E].
    + by apply At_Panic in E as [E _].
  - intros Hi. change (IPPrefixSlice.At v i) with (Slice.At (SliceOf x) i).
    apply At_Panic. done.
  - intros Hv b. unfold IPPrefixSlice.UnmarshalJSON. simpl.
    by rewrite (UnmarshalJSON_non_nil (SliceOf x) b Hv).
Qed.

(** JSON round trip of [IPPrefixSlice]. For every backing slice [C] that
    [encoding/json] writes and reads back, marshalling the prefix view of
    [C] succeeds with the bytes of [C] itself, and unmarshalling them into
    a prefix view whose backing slice is nil leaves the prefix view of
    [C]. *)
Theorem IPPrefixSlice_roundtrip {P} `{JSON P} (C : goslice P) :
  json_roundtrips C →
  ∃ b, json_Marshal C = (b, None) ∧
       IPPrefixSlice.MarshalJSON (IPPrefixSliceOf C) = (b, None) ∧
       IPPrefixSlice.UnmarshalJSON (IPPrefixSliceOf nil_slice) b
       = (IPPrefixSliceOf C, None).
Proof.
  intros (b & Hm & Hb & Hu). exists b. split_and!; [done | done |].
  unfold IPPrefixSlice.UnmarshalJSON, Slice.UnmarshalJSON. simpl.
  rewrite unmarshalJSON_decode by done. by rewrite Hu.
Qed.

Lemma IPPrefixSlice_roundtrip_witness :
  json_roundtrips (slice_of [10; 192]) ∧
  ∃ b, IPPrefixSlice.MarshalJSON (IPPrefixSliceOf (slice_of [10; 192])) = (b, None) ∧
       IPPrefixSlice.UnmarshalJSON (IPPrefixSliceOf nil_slice) b
       = (IPPrefixSliceOf (slice_of [10; 192]), None).
Proof.
  assert (json_roundtrips (slice_of [10; 192])) as Hrt.
  { eexists. split_and!; [reflexivity | done | vm_compute; reflexivity]. }
  split; [exact Hrt |].
  destruct (IPPrefixSlice_roundtrip (slice_of [10; 192]) Hrt) as (b & _ & Hm & Hu).
  exists b. split; [exact Hm | exact Hu].
Defined.

(** ** Default paths *)

Section PathFacts.
Context {Distro : Type} `{EqDecision Distro}.
Variables (Synology Gokrazy QNAP : Distro).
Implicit Types p : paths.platform (Distro:=Distro).

Lemma generic_socket p :
  generic_platform Synology Gokrazy QNAP p →
  paths.DefaultTailscaledSocket Synology Gokrazy QNAP p
  = if var_run_is_dir p then "/var/run/tailscale/tailscaled.sock"
    else "tailscaled.sock".
Proof.
  intros (Hw & Hd & Hs & Hg & Hq). unfold paths.DefaultTailscaledSocket.
  destruct (String.eqb_spec (paths.GOOS p) "windows"); [done |].
  destruct (String.eqb_spec (paths.GOOS p) "darwin"); [done |].
  rewrite !decide_False by done. unfold var_run_is_dir.
  destruct (paths.os_Stat p "/var/run") as [[[]] |]; done.
Qed.

Lemma special_socket p p' :
  ¬ generic_platform Synology Gokrazy QNAP p →
  paths.GOOS p' = paths.GOOS p →
  paths.distro_Get p' = paths.distro_Get p →
  paths.distro_DSMVersion p' = paths.distro_DSMVersion p →
  paths.DefaultTailscaledSocket Synology Gokrazy QNAP p'
  = paths.DefaultTailscaledSocket Synology Gokrazy QNAP p.
Proof.
  intros Hng Ho Hd Hv. unfold paths.DefaultTailscaledSocket.
  rewrite Ho, Hd, Hv.
  destruct (String.eqb_spec (paths.GOOS p) "windows"); [done |].
  destruct (String.eqb_spec (paths.GOOS p) "darwin"); [done |].
  repeat case_decide; try done.
  exfalso. apply Hng. by repeat split.
Qed.
End PathFacts.

(** [DefaultTailscaledSocket] always names a socket. On every platform,
    whatever the distribution, its version and the file system, the result
    is not the empty string. *)
Theorem DefaultTailscaledSocket_never_empty {Distro} `{EqDecision Distro}
    (Synology Gokrazy QNAP : Distro) (p : paths.platform) :
  paths.DefaultTailscaledSocket Synology Gokrazy QNAP p ≠ "".
Proof.
  unfold paths.DefaultTailscaledSocket.
  repeat match goal with
         | |- context [if ?c then _ else _] => destruct c
         | |- context [match ?c with Some _ => _ | None => _ end] => destruct c
         end; discriminate.
Qed.

(** Where [DefaultTailscaledSocket] looks at the file system. On Windows,
    on macOS and on Synology, Gokrazy and QNAP the result is fixed by the
    platform, the distribution and the DSM version: [os.Stat] has no part
    in it. Everywhere else the result is the socket under [/var/run] when
    [/var/run] is a directory and the relative name [tailscaled.sock] when
    it is not; this is the only case in which the result is that relative
    name. *)
Theorem DefaultTailscaledSocket_file_system {Distro} `{EqDecision Distro}
    (Synology Gokrazy QNAP : Distro) (p : paths.platform) :
  (generic_platform Synology Gokrazy QNAP p →
   paths.DefaultTailscaledSocket Synology Gokrazy QNAP p
   = if var_run_is_dir p then "/var/run/tailscale/tailscaled.sock"
     else "tailscaled.sock") ∧
  (¬ generic_platform Synology Gokrazy QNAP p →
   ∀ p', paths.GOOS p' = paths.GOOS p →
         paths.distro_Get p' = paths.distro_Get p →
         paths.distro_DSMVersion p' = paths.distro_DSMVersion p →
         paths.DefaultTailscaledSocket Synology Gokrazy QNAP p'
         = paths.DefaultTailscaledSocket Synology Gokrazy QNAP p) ∧
  (paths.DefaultTailscaledSocket Synology Gokrazy QNAP p = "tailscaled.sock" ↔
   generic_platform Synology Gokrazy QNAP p ∧ var_run_is_dir p = false).
Proof.
  split; [apply generic_socket |].
  split; [intros Hng p'; by apply special_socket |].
  destruct (decide (paths.GOOS p = "windows")) as [Hw | Hw];
  [| destruct (decide (paths.GOOS p = "darwin")) as [Hd | Hd];
     [| destruct (decide (paths.distro_Get p = Synology)) as [Hs | Hs];
        [| destruct (decide (paths.distro_Get p = Gokrazy)) as [Hg | Hg];
           [| destruct (decide (paths.distro_Get p = QNAP)) as [Hq | Hq]]]]].
  1-5: split; [| by intros [(? & ? & ? & ? & ?) _]];
       unfold paths.DefaultTailscaledSocket;
       repeat match goal with
              | |- context [String.eqb ?a ?b] => destruct (String.eqb_spec a b)
              | |- context [decide ?P] => destruct (decide P)
              | |- context [?a =? ?b] => destruct (a =? b)
              end; done.
  assert (generic_platform Synology Gokrazy QNAP p) as Hgen by done.
  rewrite (generic_socket _ _ _ p Hgen).
  destruct (var_run_is_dir p); split; try done. by intros [_ ?].
Qed.

(** [MkStateDir] needs both steps. It creates the directory with mode
    [0700] and then hands it to [ensureStateDirPerms]; it returns no error
    exactly when both do. When [os.MkdirAll] fails its error is returned
    and [ensureStateDirPerms] is not run: the file system is as
    [os.MkdirAll] left it. *)
Theorem MkStateDir_both_steps {FS E}
    (os_MkdirAll : string → Z → FS → FS * option E)
    (ensureStateDirPerms : string → FS → FS * option E)
    (dirPath : string) (fs : FS) :
  let made := os_MkdirAll dirPath 448 fs in
  let run := paths.MkStateDir os_MkdirAll ensureStateDirPerms dirPath fs in
  (run.2 = None ↔
   made.2 = None ∧ (ensureStateDirPerms dirPath made.1).2 = None) ∧
  (∀ e, made.2 = Some e → run = (made.1, Some e)) ∧
  (made.2 = None → run = ensureStateDirPerms dirPath made.1).
Proof.
  intros made run. unfold run, paths.MkStateDir. fold made.
  destruct made as [fs1 [e |]]; simpl.
  - split_and!; [| by intros ? [= ->] | done].
    split; [done | by intros [? _]].
  - split_and!; [| done | done]. split; [done | by intros [_ ?]].
Qed.
